(** * go-mysql-server: scalar functions and the cross join

    A shallow embedding of

    - package [expression]: [IsBinary], [Substring], [Year];
    - package [plan]: [CrossJoin] and its [crossJoinIterator], with a
      row taken for the values it holds, as if no two rows shared an
      array;
    - module [memory]: the same iterators over the backing arrays of
      their rows, which rows do share;

    followed by the properties of the specification that concern them. *)

From Stdlib Require Import String Ascii Strings.Byte.
From Stdlib Require Import ZArith List Bool Lia Arith.
Import ListNotations.

Local Open Scope string_scope.
Local Open Scope list_scope.
Local Open Scope Z_scope.

(** * Package sql: values, rows, errors *)

Module sql.

(** A timestamp ([time.Time]) seen through its calendar fields.
    [Time_Year] is what [Time.Year()] returns, a Go [int]. *)
Record Time := mkTime {
  Time_Year : Z;
  Time_Month : Z;
  Time_Day : Z;
  Time_nanos_of_day : Z
}.

(** The dynamic value domain ([interface{}]). *)
Inductive Value :=
| VNil
| VBool (b : bool)
| VInt32 (z : Z)
| VInt64 (z : Z)
| VText (s : string)
| VBlob (b : list byte)
| VTime (t : Time).

(** [reflect.TypeOf(v).String()] for a non-nil [v]. *)
Definition TypeOf (v : Value) : string :=
  match v with
  | VNil => "<nil>"
  | VBool _ => "bool"
  | VInt32 _ => "int32"
  | VInt64 _ => "int64"
  | VText _ => "string"
  | VBlob _ => "[]uint8"
  | VTime _ => "time.Time"
  end.

(** [sql.Row] is [[]interface{}]: the nil slice, or a (possibly empty)
    sequence of values. *)
Inductive Row :=
| RowNil
| RowOf (vs : list Value).

Definition values (r : Row) : list Value :=
  match r with
  | RowNil => []
  | RowOf vs => vs
  end.

Definition is_nil (r : Row) : bool :=
  match r with
  | RowNil => true
  | RowOf _ => false
  end.

(** The values of Go's [append(r, vs...)]: with nothing to add the slice
    itself comes back (nil stays nil), otherwise a slice holding both.
    Values do not tell whether the result shares the array of [r], and
    so whether a later [append] to [r] overwrites it; [memory.append]
    below keeps track of the arrays. *)
Definition append (r : Row) (vs : list Value) : Row :=
  match vs with
  | [] => r
  | _ :: _ => RowOf (values r ++ vs)
  end.

(** Errors.  [io_EOF] is the end-of-stream marker of iterators;
    [ErrExternal] stands for the errors of collaborators (type
    conversions, storage). *)
Inductive error :=
| io_EOF
| ErrInvalidArgumentNumber (expected : string) (actual : nat)
| ErrInvalidType (ty : string)
| ErrExternal (msg : string).

Definition is_EOF (e : error) : bool :=
  match e with
  | io_EOF => true
  | _ => false
  end.

Definition is_arity_error (e : error) : bool :=
  match e with
  | ErrInvalidArgumentNumber _ _ => true
  | _ => false
  end.

(** What a call comes back with: a value, an error, or a run-time panic. *)
Inductive outcome (A : Type) :=
| Ret (a : A)
| Err (e : error)
| Panic (msg : string).

Arguments Ret {A} a.
Arguments Err {A} e.
Arguments Panic {A} msg.

(** The conversions of the type system the functions below rely on
    ([sql.Blob.Convert], [sql.Int64.Convert], [sql.Date.Convert]). *)
Class TypeSystem := {
  Blob_Convert : Value -> error + list byte;
  Int64_Convert : Value -> error + Z;
  Date_Convert : Value -> error + Time
}.

(** ** Fixed-width integers *)

Definition wrap (w : Z) (z : Z) : Z :=
  (z + 2 ^ (w - 1)) mod 2 ^ w - 2 ^ (w - 1).

Definition int64 (z : Z) : Z := wrap 64 z.
Definition int32 (z : Z) : Z := wrap 32 z.

Definition MaxInt64 : Z := 9223372036854775807.
Definition MinInt64 : Z := -9223372036854775808.

Definition is_int64 (z : Z) : Prop := MinInt64 <= z <= MaxInt64.
Definition is_int32 (z : Z) : Prop := -2147483648 <= z <= 2147483647.

Definition add64 (a b : Z) : Z := int64 (a + b).
Definition sub64 (a b : Z) : Z := int64 (a - b).

End sql.

Export sql.

(** * Go strings and runes *)

Module utf8.

Definition rune := Z.

Definition RuneError : rune := 65533.

Definition bytes_of_string (s : string) : list Z :=
  map (fun c => Z.of_N (N_of_ascii c)) (list_ascii_of_string s).

Definition string_of_bytes (bs : list Z) : string :=
  string_of_list_ascii (map (fun b => ascii_of_N (Z.to_N b)) bs).

Definition between (lo hi b : Z) : bool := (lo <=? b) && (b <=? hi).

(** The range the second byte of a sequence must lie in, by first byte. *)
Definition second_lo (b0 : Z) : Z :=
  if b0 =? 224 then 160 else if b0 =? 240 then 144 else 128.

Definition second_hi (b0 : Z) : Z :=
  if b0 =? 237 then 159 else if b0 =? 244 then 143 else 191.

Definition low6 (b : Z) : Z := Z.land b 63.

(** [[]rune(s)]: one rune per well-formed sequence, [RuneError] for each
    byte that starts none. *)
Fixpoint decode (bs : list Z) : list rune :=
  match bs with
  | [] => []
  | b0 :: r0 =>
    if b0 <? 128 then b0 :: decode r0
    else if between 194 223 b0 then
      match r0 with
      | b1 :: r1 =>
        if between 128 191 b1
        then Z.lor (Z.shiftl (Z.land b0 31) 6) (low6 b1) :: decode r1
        else RuneError :: decode r0
      | [] => RuneError :: decode r0
      end
    else if between 224 239 b0 then
      match r0 with
      | b1 :: b2 :: r2 =>
        if between (second_lo b0) (second_hi b0) b1 && between 128 191 b2
        then Z.lor (Z.shiftl (Z.land b0 15) 12)
               (Z.lor (Z.shiftl (low6 b1) 6) (low6 b2)) :: decode r2
        else RuneError :: decode r0
      | _ => RuneError :: decode r0
      end
    else if between 240 244 b0 then
      match r0 with
      | b1 :: b2 :: b3 :: r3 =>
        if between (second_lo b0) (second_hi b0) b1
           && between 128 191 b2 && between 128 191 b3
        then Z.lor (Z.shiftl (Z.land b0 7) 18)
               (Z.lor (Z.shiftl (low6 b1) 12)
                  (Z.lor (Z.shiftl (low6 b2) 6) (low6 b3))) :: decode r3
        else RuneError :: decode r0
      | _ => RuneError :: decode r0
      end
    else RuneError :: decode r0
  end.

Definition encode_rune (r : rune) : list Z :=
  if r <? 0 then [239; 191; 189]
  else if r <? 128 then [r]
  else if r <? 2048 then [Z.lor 192 (Z.shiftr r 6); Z.lor 128 (low6 r)]
  else if (1114111 <? r) || between 55296 57343 r then [239; 191; 189]
  else if r <? 65536 then
    [Z.lor 224 (Z.shiftr r 12); Z.lor 128 (low6 (Z.shiftr r 6));
     Z.lor 128 (low6 r)]
  else
    [Z.lor 240 (Z.shiftr r 18); Z.lor 128 (low6 (Z.shiftr r 12));
     Z.lor 128 (low6 (Z.shiftr r 6)); Z.lor 128 (low6 r)].

(** [[]rune(s)] and [string(rs)]. *)
Definition runes_of_string (s : string) : list rune :=
  decode (bytes_of_string s).

Definition string_of_runes (rs : list rune) : string :=
  string_of_bytes (flat_map encode_rune rs).

End utf8.

Import utf8.

(** * Package expression *)

Module expression.

(** ** Evaluation: results with the log of the leaves evaluated *)

Definition ev (A : Type) : Type := (list string * outcome A)%type.

Definition ret {A} (a : A) : ev A := ([], Ret a).
Definition fail {A} (e : error) : ev A := ([], Err e).

Definition bind {A B} (m : ev A) (k : A -> ev B) : ev B :=
  match m with
  | (t, Ret a) => let (t', r) := k a in (t ++ t', r)
  | (t, Err e) => (t, Err e)
  | (t, Panic msg) => (t, Panic msg)
  end.

Notation "x <- m ;; k" := (bind m (fun x => k))
  (at level 61, m at next level, right associativity).

(** A Go result pair [(v, err)] entering the evaluation. *)
Definition lift {A} (r : error + A) : ev A :=
  match r with
  | inl e => fail e
  | inr a => ret a
  end.

Definition lift_outcome {A} (r : outcome A) : ev A := ([], r).

(** ** Expression trees *)

(** Modelled from the spec: the leaf expressions (literals, column
    references) are not part of these files.  A leaf is given by what the
    Expression contract (section 6) lets one observe of it. *)
Record Leaf := mkLeaf {
  leaf_Name : string;
  leaf_Resolved : bool;
  leaf_Eval : Row -> outcome Value
}.

(** [Substring]'s [len] is nil when the call has two arguments. *)
#[local] Unset Elimination Schemes.

Inductive Expression :=
| ELeaf (l : Leaf)
| IsBinary (Child : Expression)
| Substring (str start : Expression) (len : option Expression)
| Year (Child : Expression).

#[local] Set Elimination Schemes.

(** The nil [sql.Expression]: whatever is called on it panics. *)
Definition nil_Expression : Expression :=
  ELeaf {| leaf_Name := "<nil>";
           leaf_Resolved := false;
           leaf_Eval := fun _ => Panic "nil pointer dereference" |}.

Definition NewIsBinary (e : Expression) : Expression := IsBinary e.

Definition NewYear (date : Expression) : Expression := Year date.

Definition NewSubstring (args : list Expression) : error + Expression :=
  match args with
  | [str; start] => inr (Substring str start None)
  | [str; start; ln] => inr (Substring str start (Some ln))
  | _ => inl (ErrInvalidArgumentNumber "2 or 3" (List.length args))
  end.

(** [sub, _ = NewSubstring(...)]: the error is dropped, and with it only
    the nil expression is left. *)
Definition discard_error (r : error + Expression) : Expression :=
  match r with
  | inr e => e
  | inl _ => nil_Expression
  end.

(** ** IsBinary *)

Definition sniffLen : nat := Z.to_nat 8000.

(** [bytes.IndexByte]: the index of the first [c], or -1. *)
Fixpoint IndexByte (data : list byte) (c : byte) : Z :=
  match data with
  | [] => -1
  | b :: rest =>
    if Byte.eqb b c then 0
    else let i := IndexByte rest c in
         if i =? -1 then -1 else i + 1
  end.

Definition isBinary (data : list byte) : bool :=
  let data :=
    if (sniffLen <? List.length data)%nat then firstn sniffLen data else data in
  if IndexByte data x00 =? -1 then false else true.

(** ** Substring *)

(** The slice expression [s[lo:hi]].  The runes of a string are sliced
    within their length here; whenever [Substring] asks for more, [hi] is
    below [lo] and Go panics whatever the capacity. *)
Definition slice {A} (s : list A) (lo hi : Z) : outcome (list A) :=
  if (0 <=? lo) && (lo <=? hi) && (hi <=? Z.of_nat (List.length s))
  then Ret (firstn (Z.to_nat (hi - lo)) (skipn (Z.to_nat lo) s))
  else Panic "slice bounds out of range".

(** The end of [Substring.Eval], from [var startIdx int64] on. *)
Definition Substring_cut (text : list rune) (start length : Z)
  : outcome Value :=
  let runeCount := Z.of_nat (List.length text) in
  let startIdx :=
    if start <? 0 then add64 runeCount start else sub64 start 1 in
  if (startIdx <? 0) || (runeCount <=? startIdx) || (length <=? 0)
  then Ret (VText "")
  else
    let length :=
      if runeCount <? add64 startIdx length
      then sub64 runeCount startIdx else length in
    match slice text startIdx (add64 startIdx length) with
    | Ret t => Ret (VText (string_of_runes t))
    | Err e => Err e
    | Panic msg => Panic msg
    end.

Section Eval.

Context {TS : TypeSystem}.

Fixpoint Eval (e : Expression) (row : Row) : ev Value :=
  match e with
  | ELeaf l => ([leaf_Name l], leaf_Eval l row)
  | IsBinary Child =>
    v <- Eval Child row ;;
    match v with
    | VNil => ret (VBool false)
    | _ =>
      blob <- lift (Blob_Convert v) ;;
      ret (VBool (isBinary blob))
    end
  | Substring str start len =>
    strv <- Eval str row ;;
    let rest (text : list rune) : ev Value :=
      startv <- Eval start row ;;
      start <- lift (Int64_Convert startv) ;;
      let runeCount := Z.of_nat (List.length text) in
      length <- match len with
                | Some ln =>
                  lenv <- Eval ln row ;;
                  lift (Int64_Convert lenv)
                | None => ret runeCount
                end ;;
      lift_outcome (Substring_cut text start length) in
    match strv with
    | VText s => rest (runes_of_string s)
    | VBlob b => rest (runes_of_string (string_of_list_byte b))
    | VNil => ret VNil
    | _ => fail (ErrInvalidType (TypeOf strv))
    end
  | Year Child =>
    val <- Eval Child row ;;
    match val with
    | VNil => ret VNil
    | _ =>
      date <- lift (Date_Convert val) ;;
      ret (VInt32 (int32 (Time_Year date)))
    end
  end.

End Eval.

Definition Name (e : Expression) : string :=
  match e with
  | ELeaf l => leaf_Name l
  | IsBinary _ => "is_binary"
  | Substring _ _ _ => "substring"
  | Year _ => "year"
  end.

(** Modelled from the spec: [IsBinary] and [Year] take [Resolved] from
    the embedded [UnaryExpression], which is not part of these files: a
    subtree is resolved once every reference in it is bound, so a unary
    node asks its child.  [Substring.Resolved] is the method of the
    source. *)
Fixpoint Resolved (e : Expression) : bool :=
  match e with
  | ELeaf l => leaf_Resolved l
  | IsBinary Child => Resolved Child
  | Substring _ _ _ => true
  | Year Child => Resolved Child
  end.

(** Modelled from the spec: a leaf has no children and hands itself to
    [f].  The other cases are the methods of the source; [IsBinary] does
    not apply [f] to the node it rebuilds. *)
Fixpoint TransformUp (f : Expression -> Expression) (e : Expression)
  : Expression :=
  match e with
  | ELeaf l => f (ELeaf l)
  | IsBinary Child => NewIsBinary (TransformUp f Child)
  | Substring str start len =>
    let sub :=
      match len with
      | Some ln =>
        discard_error (NewSubstring [TransformUp f str; TransformUp f start;
                                     TransformUp f ln])
      | None =>
        discard_error (NewSubstring [TransformUp f str; TransformUp f start])
      end in
    f sub
  | Year Child => f (NewYear (TransformUp f Child))
  end.

(** The children of a node, in order. *)
Definition Children (e : Expression) : list Expression :=
  match e with
  | ELeaf _ => []
  | IsBinary Child => [Child]
  | Substring str start None => [str; start]
  | Substring str start (Some ln) => [str; start; ln]
  | Year Child => [Child]
  end.

End expression.

(** * Package plan *)

Module plan.

(** ** The world of iterators

    Opening and closing an iterator of the storage layer are the events
    the resource discipline speaks of; the world keeps them in order. *)

Inductive event :=
| Opened (id : nat)
| Closed (id : nat).

Record World := mkWorld {
  next_id : nat;
  events : list event
}.

Definition empty_World : World := mkWorld 0 [].

Definition emit (ev : event) (w : World) : World :=
  mkWorld (next_id w) (events w ++ [ev]).

Definition fresh (w : World) : nat * World :=
  (next_id w, mkWorld (S (next_id w)) (events w ++ [Opened (next_id w)])).

Definition event_eqb (a b : event) : bool :=
  match a, b with
  | Opened i, Opened j => Nat.eqb i j
  | Closed i, Closed j => Nat.eqb i j
  | _, _ => false
  end.

Definition count_event (ev : event) (w : World) : nat :=
  List.length (filter (event_eqb ev) (events w)).

Definition opens (id : nat) (w : World) : nat := count_event (Opened id) w.
Definition closes (id : nat) (w : World) : nat := count_event (Closed id) w.

(** ** Plan trees *)

Record Column := mkColumn {
  column_Name : string;
  column_Nullable : bool
}.

Definition Schema := list Column.

(** Modelled from the spec: the nodes at the leaves (tables of the
    storage layer) are not part of these files.  A leaf is given by what
    the Plan Node and RowIterator contracts (section 6) let one observe:
    its schema, whether it is resolved, whether [RowIter()] fails, what
    the successive calls of [Next] on its iterator return before the end
    of the stream, and what [Close] returns. *)
Record Table := mkTable {
  table_Name : string;
  table_Schema : Schema;
  table_Resolved : bool;
  table_RowIter : option error;
  table_Next : list (error + Row);
  table_Close : option error
}.

Inductive Node :=
| NTable (t : Table)
| CrossJoin (Left Right : Node).

Definition NewCrossJoin (left right : Node) : Node := CrossJoin left right.

Fixpoint Node_Schema (p : Node) : Schema :=
  match p with
  | NTable t => table_Schema t
  | CrossJoin Left Right => Node_Schema Left ++ Node_Schema Right
  end.

Fixpoint Resolved (p : Node) : bool :=
  match p with
  | NTable t => table_Resolved t
  | CrossJoin Left Right => Resolved Left && Resolved Right
  end.

(** Modelled from the spec: a leaf has no children and hands itself to
    [f]. *)
Fixpoint TransformUp (f : Node -> Node) (p : Node) : Node :=
  match p with
  | NTable t => f (NTable t)
  | CrossJoin Left Right =>
    f (NewCrossJoin (TransformUp f Left) (TransformUp f Right))
  end.

(** ** Iterators *)

(** The iterator objects: the one of a table, holding what its [Next]
    has still to return, and [crossJoinIterator] with its five fields.
    A row is taken for the values it holds, as if no two rows shared
    an array; module [memory] below does without this. *)
Inductive RowIterator :=
| tableIterator (id : nat) (pending : list (error + Row))
                (close : option error)
| crossJoinIterator (li ri : RowIterator) (rightRows : list Row)
                    (index : nat) (leftRow : Row).

(** [RowIter()]: the iterator or the error, and the world after. *)
Fixpoint RowIter (p : Node) (w : World) : (error + RowIterator) * World :=
  match p with
  | NTable t =>
    match table_RowIter t with
    | Some err => (inl err, w)
    | None =>
      let (id, w') := fresh w in
      (inr (tableIterator id (table_Next t) (table_Close t)), w')
    end
  | CrossJoin Left Right =>
    match RowIter Left w with
    | (inl err, w1) => (inl err, w1)
    | (inr li, w1) =>
      match RowIter Right w1 with
      | (inl err, w2) => (inl err, w2)
      | (inr ri, w2) => (inr (crossJoinIterator li ri [] 0 RowNil), w2)
      end
    end
  end.

(** A call of [Next]: what it returns and the iterator after the call.
    [None] when the fuel does not suffice. *)
Definition step : Type := option (outcome Row * RowIterator).

Section crossJoinIterator.

(** [Next] of the iterators held in [li] and [ri]. *)
Variable next : RowIterator -> step.

(** The loop of [fillRows] over [ri], appending to [rightRows].  Only an
    error of [ri.Next()] (or a panic) ends it, never a plain return. *)
Fixpoint fillRows (fuel : nat) (ri : RowIterator) (rightRows : list Row)
  : option (outcome Empty_set * RowIterator * list Row) :=
  match fuel with
  | O => None
  | S fuel' =>
    match next ri with
    | None => None
    | Some (Err err, ri') => Some (Err err, ri', rightRows)
    | Some (Panic msg, ri') => Some (Panic msg, ri', rightRows)
    | Some (Ret rr, ri') => fillRows fuel' ri' (rightRows ++ [rr])
    end
  end.

(** [crossJoinIterator.Next] from [if i.leftRow == nil] to its end. *)
Definition Next_row (li ri : RowIterator) (rightRows : list Row)
  (index : nat) (leftRow : Row) : step :=
  let pulled :=
    if is_nil leftRow then
      match next li with
      | None => None
      | Some (Ret lr, li') => Some (inr (li', 0%nat, lr))
      | Some (Err err, li') => Some (inl (Err err, li'))
      | Some (Panic msg, li') => Some (inl (Panic msg, li'))
      end
    else Some (inr (li, index, leftRow)) in
  match pulled with
  | None => None
  | Some (inl (out, li')) =>
    Some (out, crossJoinIterator li' ri rightRows index leftRow)
  | Some (inr (li', index, leftRow)) =>
    match nth_error rightRows index with
    | None =>
      Some (Panic "index out of range",
            crossJoinIterator li' ri rightRows index leftRow)
    | Some rr =>
      let row := append leftRow (values rr) in
      let index := S index in
      if (List.length rightRows <=? index)%nat
      then Some (Ret row, crossJoinIterator li' ri rightRows 0 RowNil)
      else Some (Ret row, crossJoinIterator li' ri rightRows index leftRow)
    end
  end.

Definition crossJoinIterator_Next (fuel : nat) (li ri : RowIterator)
  (rightRows : list Row) (index : nat) (leftRow : Row) : step :=
  match rightRows with
  | [] =>
    match fillRows fuel ri rightRows with
    | None => None
    | Some (Ret nothing, _, _) => match nothing with end
    | Some (Panic msg, ri, rightRows) =>
      Some (Panic msg, crossJoinIterator li ri rightRows index leftRow)
    | Some (Err err, ri, rightRows) =>
      if is_EOF err then
        match rightRows with
        | [] =>
          Some (Err io_EOF, crossJoinIterator li ri rightRows index leftRow)
        | _ :: _ => Next_row li ri rightRows index leftRow
        end
      else Some (Err err, crossJoinIterator li ri rightRows index leftRow)
    end
  | _ :: _ => Next_row li ri rightRows index leftRow
  end.

End crossJoinIterator.

(** [Next()] of an iterator, by the object it is. *)
Fixpoint Next (fuel : nat) (i : RowIterator) : step :=
  match fuel with
  | O => None
  | S fuel' =>
    match i with
    | tableIterator id pending close =>
      match pending with
      | [] => Some (Err io_EOF, i)
      | inl err :: pending' => Some (Err err, tableIterator id pending' close)
      | inr row :: pending' => Some (Ret row, tableIterator id pending' close)
      end
    | crossJoinIterator li ri rightRows index leftRow =>
      crossJoinIterator_Next (Next fuel') fuel' li ri rightRows index leftRow
    end
  end.

(** [Close()]: the error returned, if any, and the world after. *)
Fixpoint Close (i : RowIterator) (w : World) : option error * World :=
  match i with
  | tableIterator id _ close => (close, emit (Closed id) w)
  | crossJoinIterator li ri _ _ _ =>
    match Close li w with
    | (Some err, w1) =>
      let (_, w2) := Close ri w1 in
      (Some err, w2)
    | (None, w1) => Close ri w1
    end
  end.

(** The iterators of the storage layer an iterator holds, left to
    right. *)
Fixpoint handles (i : RowIterator) : list nat :=
  match i with
  | tableIterator id _ _ => [id]
  | crossJoinIterator li ri _ _ _ => handles li ++ handles ri
  end.

(** Pulling an iterator until it returns an error: the rows returned, in
    order, and that error.  [None] when the fuel does not suffice or a
    call panics. *)
Fixpoint drain (fuel : nat) (i : RowIterator) : option (list Row * error) :=
  match fuel with
  | O => None
  | S fuel' =>
    match Next fuel' i with
    | Some (Ret row, i') =>
      match drain fuel' i' with
      | Some (rows, err) => Some (row :: rows, err)
      | None => None
      end
    | Some (Err err, _) => Some ([], err)
    | _ => None
    end
  end.

(** [Yields i rows]: the successive calls of [Next] on [i] return
    [rows], in order, and the call after the last one returns [io.EOF]. *)
Inductive Yields : RowIterator -> list Row -> Prop :=
| Yields_EOF i i' fuel :
    Next fuel i = Some (Err io_EOF, i') -> Yields i []
| Yields_row i i' fuel row rows :
    Next fuel i = Some (Ret row, i') -> Yields i' rows ->
    Yields i (row :: rows).

(** [next2] returns whatever [next1] returns (it has at least its fuel). *)
Definition extends (next1 next2 : RowIterator -> step) : Prop :=
  forall i x, next1 i = Some x -> next2 i = Some x.

(** The rows of a cross join: left-major, each left row with every right
    row. *)
Definition cross (Ls : list (list Value)) (Rs : list Row) : list Row :=
  flat_map (fun l => map (fun r => RowOf (l ++ values r)) Rs) Ls.

(** [Ends i rows err]: the successive calls of [Next] on [i] return
    [rows], in order, and the call after the last one returns the error
    [err]. *)
Inductive Ends : RowIterator -> list Row -> error -> Prop :=
| Ends_error i i' fuel err :
    Next fuel i = Some (Err err, i') -> Ends i [] err
| Ends_row i i' fuel row rows err :
    Next fuel i = Some (Ret row, i') -> Ends i' rows err ->
    Ends i (row :: rows) err.

(** In every [crossJoinIterator] of [i], [index] is 0 or points into
    the buffered right rows. *)
Fixpoint index_ok (i : RowIterator) : Prop :=
  match i with
  | tableIterator _ _ _ => True
  | crossJoinIterator li ri rightRows index _ =>
    index_ok li /\ index_ok ri /\
    (index = 0%nat \/ (index < List.length rightRows)%nat)
  end.

(** What the closes of the iterators held return, left to right. *)
Fixpoint close_results (i : RowIterator) : list (option error) :=
  match i with
  | tableIterator _ _ close => [close]
  | crossJoinIterator li ri _ _ _ => close_results li ++ close_results ri
  end.

Fixpoint first_error (rs : list (option error)) : option error :=
  match rs with
  | [] => None
  | Some err :: _ => Some err
  | None :: rs' => first_error rs'
  end.

(** The tables of a plan, left to right. *)
Fixpoint tables (p : Node) : list Table :=
  match p with
  | NTable t => [t]
  | CrossJoin Left Right => tables Left ++ tables Right
  end.

(** [Pulled i i']: some calls of [Next], maybe none, lead from the
    iterator [i] to [i']. *)
Inductive Pulled : RowIterator -> RowIterator -> Prop :=
| Pulled_none i : Pulled i i
| Pulled_next i i1 i' fuel out :
    Next fuel i = Some (out, i1) -> Pulled i1 i' -> Pulled i i'.

Definition event_id (ev : event) : nat :=
  match ev with
  | Opened id => id
  | Closed id => id
  end.

(** Every iterator the world has seen was numbered below [next_id]. *)
Definition World_ok (w : World) : Prop :=
  Forall (fun ev => (event_id ev < next_id w)%nat) (events w).

End plan.

(** * Rows in memory

    A [sql.Row] is a slice: a window on a backing array that other
    slices may share.  [append] writes into that array when its capacity
    suffices, and what a row returned earlier reads as may change with
    it.  Package plan above takes a row for its values, as if no two
    rows shared an array; this module runs the same iterators over a
    store of backing arrays. *)

Module memory.

(** The arrays allocated so far.  Array [a] is [cells st a]; its length
    is its capacity. *)
Definition Store := list (list Value).

Definition cells (st : Store) (a : nat) : list Value := nth a st [].

(** A slice: nil, or the first [len] cells of the array [arr].  (Rows
    are never cut from the middle of an array in these files, so a slice
    starts at the first cell of its array.) *)
Inductive Slice :=
| SliceNil
| SliceOf (arr len : nat).

Definition len (s : Slice) : nat :=
  match s with
  | SliceNil => 0
  | SliceOf _ n => n
  end.

Definition cap (st : Store) (s : Slice) : nat :=
  match s with
  | SliceNil => 0
  | SliceOf a _ => List.length (cells st a)
  end.

Definition is_nil (s : Slice) : bool :=
  match s with
  | SliceNil => true
  | SliceOf _ _ => false
  end.

(** The values a slice holds in the store [st]. *)
Definition read (st : Store) (s : Slice) : list Value :=
  match s with
  | SliceNil => []
  | SliceOf a n => firstn n (cells st a)
  end.

(** The row a slice reads as in the store [st]. *)
Definition row (st : Store) (s : Slice) : Row :=
  match s with
  | SliceNil => RowNil
  | SliceOf _ _ => RowOf (read st s)
  end.

(** The capacity [append] gives the array it allocates when [needed]
    cells do not fit in [oldcap] (Go's [runtime.growslice]): the cells
    needed when that is more than twice the old capacity, twice the old
    capacity otherwise.  (This is the rule for slices of fewer than 256
    elements; the size classes of the allocator leave the capacity of
    an array of up to 16 values as it is.) *)
Definition growcap (oldcap needed : nat) : nat :=
  if (oldcap + oldcap <? needed)%nat then needed else (oldcap + oldcap)%nat.

(** The array [old] with [vs] written from cell [pos] on. *)
Definition overwrite (old : list Value) (pos : nat) (vs : list Value)
  : list Value :=
  firstn pos old ++ vs ++ skipn (pos + List.length vs) old.

Definition write (st : Store) (a pos : nat) (vs : list Value) : Store :=
  firstn a st ++ [overwrite (cells st a) pos vs] ++ skipn (S a) st.

(** [append] when the capacity does not suffice: a new array holding the
    values of [s], then [vs], then zero values up to its capacity. *)
Definition grow (st : Store) (s : Slice) (vs : list Value) : Slice * Store :=
  let needed := (len s + List.length vs)%nat in
  (SliceOf (List.length st) needed,
   st ++ [read st s ++ vs ++ repeat VNil (growcap (cap st s) needed - needed)]).

(** Go's [append(s, vs...)]: with nothing to add the slice itself comes
    back; when the values fit in the capacity of [s] they are written
    into its array, behind its last value, and the result shares that
    array; otherwise the result is a slice of a new array. *)
Definition append (st : Store) (s : Slice) (vs : list Value) : Slice * Store :=
  match vs with
  | [] => (s, st)
  | _ :: _ =>
    match s with
    | SliceNil => grow st s vs
    | SliceOf a n =>
      if (n + List.length vs <=? cap st s)%nat
      then (SliceOf a (n + List.length vs), write st a n vs)
      else grow st s vs
    end
  end.

(** ** Iterators *)

Inductive RowIterator :=
| tableIterator (id : nat) (pending : list (error + Slice))
                (close : option error)
| crossJoinIterator (li ri : RowIterator) (rightRows : list Slice)
                    (index : nat) (leftRow : Slice).

(** Modelled from the spec: the storage layer is not part of these
    files.  A table keeps each of its rows in an array of its own that
    the row fills (capacity = length), as [sql.NewRow] builds a row. *)
Fixpoint load (rows : list (error + Row)) (st : Store)
  : list (error + Slice) * Store :=
  match rows with
  | [] => ([], st)
  | inl err :: rows' =>
    let (pending, st') := load rows' st in (inl err :: pending, st')
  | inr RowNil :: rows' =>
    let (pending, st') := load rows' st in (inr SliceNil :: pending, st')
  | inr (RowOf vs) :: rows' =>
    let (pending, st') := load rows' (st ++ [vs]) in
    (inr (SliceOf (List.length st) (List.length vs)) :: pending, st')
  end.

(** [RowIter()]: the iterator or the error, the world and the store
    after. *)
Fixpoint RowIter (p : plan.Node) (w : plan.World) (st : Store)
  : (error + RowIterator) * plan.World * Store :=
  match p with
  | plan.NTable t =>
    match plan.table_RowIter t with
    | Some err => (inl err, w, st)
    | None =>
      let (id, w') := plan.fresh w in
      let (pending, st') := load (plan.table_Next t) st in
      (inr (tableIterator id pending (plan.table_Close t)), w', st')
    end
  | plan.CrossJoin Left Right =>
    match RowIter Left w st with
    | (inl err, w1, st1) => (inl err, w1, st1)
    | (inr li, w1, st1) =>
      match RowIter Right w1 st1 with
      | (inl err, w2, st2) => (inl err, w2, st2)
      | (inr ri, w2, st2) =>
        (inr (crossJoinIterator li ri [] 0 SliceNil), w2, st2)
      end
    end
  end.

(** A call of [Next]: what it returns, the iterator and the store after
    the call.  [None] when the fuel does not suffice. *)
Definition step : Type := option (outcome Slice * RowIterator * Store).

Section crossJoinIterator.

Variable next : RowIterator -> Store -> step.

Fixpoint fillRows (fuel : nat) (ri : RowIterator) (rightRows : list Slice)
  (st : Store)
  : option (outcome Empty_set * RowIterator * list Slice * Store) :=
  match fuel with
  | O => None
  | S fuel' =>
    match next ri st with
    | None => None
    | Some (Err err, ri', st') => Some (Err err, ri', rightRows, st')
    | Some (Panic msg, ri', st') => Some (Panic msg, ri', rightRows, st')
    | Some (Ret rr, ri', st') => fillRows fuel' ri' (rightRows ++ [rr]) st'
    end
  end.

(** [crossJoinIterator.Next] from [if i.leftRow == nil] to its end. *)
Definition Next_row (li ri : RowIterator) (rightRows : list Slice)
  (index : nat) (leftRow : Slice) (st : Store) : step :=
  let pulled :=
    if is_nil leftRow then
      match next li st with
      | None => None
      | Some (Ret lr, li', st') => Some (inr (li', 0%nat, lr, st'))
      | Some (Err err, li', st') => Some (inl (Err err, li', st'))
      | Some (Panic msg, li', st') => Some (inl (Panic msg, li', st'))
      end
    else Some (inr (li, index, leftRow, st)) in
  match pulled with
  | None => None
  | Some (inl (out, li', st')) =>
    Some (out, crossJoinIterator li' ri rightRows index leftRow, st')
  | Some (inr (li', index, leftRow, st')) =>
    match nth_error rightRows index with
    | None =>
      Some (Panic "index out of range",
            crossJoinIterator li' ri rightRows index leftRow, st')
    | Some rr =>
      let (row, st'') := append st' leftRow (read st' rr) in
      let index := S index in
      if (List.length rightRows <=? index)%nat
      then Some (Ret row, crossJoinIterator li' ri rightRows 0 SliceNil, st'')
      else Some (Ret row, crossJoinIterator li' ri rightRows index leftRow,
                 st'')
    end
  end.

Definition crossJoinIterator_Next (fuel : nat) (li ri : RowIterator)
  (rightRows : list Slice) (index : nat) (leftRow : Slice) (st : Store)
  : step :=
  match rightRows with
  | [] =>
    match fillRows fuel ri rightRows st with
    | None => None
    | Some (Ret nothing, _, _, _) => match nothing with end
    | Some (Panic msg, ri, rightRows, st') =>
      Some (Panic msg, crossJoinIterator li ri rightRows index leftRow, st')
    | Some (Err err, ri, rightRows, st') =>
      if is_EOF err then
        match rightRows with
        | [] =>
          Some (Err io_EOF, crossJoinIterator li ri rightRows index leftRow,
                st')
        | _ :: _ => Next_row li ri rightRows index leftRow st'
        end
      else Some (Err err, crossJoinIterator li ri rightRows index leftRow, st')
    end
  | _ :: _ => Next_row li ri rightRows index leftRow st
  end.

End crossJoinIterator.

(** [Next()] of an iterator, by the object it is. *)
Fixpoint Next (fuel : nat) (i : RowIterator) (st : Store) : step :=
  match fuel with
  | O => None
  | S fuel' =>
    match i with
    | tableIterator id pending close =>
      match pending with
      | [] => Some (Err io_EOF, i, st)
      | inl err :: pending' =>
        Some (Err err, tableIterator id pending' close, st)
      | inr row :: pending' =>
        Some (Ret row, tableIterator id pending' close, st)
      end
    | crossJoinIterator li ri rightRows index leftRow =>
      crossJoinIterator_Next (Next fuel') fuel' li ri rightRows index leftRow
                             st
    end
  end.

(** Pulling an iterator until it returns an error: the slices returned,
    each with the values it holds when it is returned, that error, and
    the store at the end. *)
Fixpoint drain (fuel : nat) (i : RowIterator) (st : Store)
  : option (list (Slice * list Value) * error * Store) :=
  match fuel with
  | O => None
  | S fuel' =>
    match Next fuel' i st with
    | Some (Ret s, i', st') =>
      match drain fuel' i' st' with
      | Some (rows, err, st'') => Some ((s, read st' s) :: rows, err, st'')
      | None => None
      end
    | Some (Err err, _, st') => Some ([], err, st')
    | _ => None
    end
  end.

Definition extends (next1 next2 : RowIterator -> Store -> step) : Prop :=
  forall i st x, next1 i st = Some x -> next2 i st = Some x.

(** ** Reading the iterators of package plan off the store *)

(** [st'] is [st] with more arrays allocated and none written. *)
Definition grown (st st' : Store) : Prop := exists more, st' = st ++ more.

(** [s] lies in an array of the store. *)
Definition valid (st : Store) (s : Slice) : Prop :=
  match s with
  | SliceNil => True
  | SliceOf a n =>
    (a < List.length st)%nat /\ (n <= List.length (cells st a))%nat
  end.

(** [s] fills its array: it has no capacity to spare. *)
Definition full (st : Store) (s : Slice) : Prop :=
  match s with
  | SliceNil => True
  | SliceOf a n => (a < List.length st)%nat /\ List.length (cells st a) = n
  end.

Definition is_table (i : RowIterator) : Prop :=
  match i with
  | tableIterator _ _ _ => True
  | crossJoinIterator _ _ _ _ _ => False
  end.

Definition read_pending (st : Store) (x : error + Slice) : error + Row :=
  match x with
  | inl err => inl err
  | inr s => inr (row st s)
  end.

(** The iterator of package plan that [i] reads as in the store [st]. *)
Fixpoint erase (st : Store) (i : RowIterator) : plan.RowIterator :=
  match i with
  | tableIterator id pending close =>
    plan.tableIterator id (map (read_pending st) pending) close
  | crossJoinIterator li ri rightRows index leftRow =>
    plan.crossJoinIterator (erase st li) (erase st ri)
      (map (row st) rightRows) index (row st leftRow)
  end.

Definition erase_outcome (st : Store) (out : outcome Slice) : outcome Row :=
  match out with
  | Ret s => Ret (row st s)
  | Err err => Err err
  | Panic msg => Panic msg
  end.

(** The rows a table has still to hand out fill their arrays; the left
    iterator of every join is that of a table; the rows a join holds lie
    in the store and its left row fills its array. *)
Fixpoint tidy (st : Store) (i : RowIterator) : Prop :=
  match i with
  | tableIterator _ pending _ =>
    Forall (fun x => match x with inl _ => True | inr s => full st s end)
           pending
  | crossJoinIterator li ri rightRows _ leftRow =>
    is_table li /\ tidy st li /\ tidy st ri /\
    Forall (valid st) rightRows /\ full st leftRow
  end.

(** [Next] on [i] in the store [st] came back with [m], and [v] is the
    same seen in package plan: arrays were allocated and none written,
    and the outcome, the iterator and the rows read as in [v]. *)
Definition matches (st : Store) (i : RowIterator) (m : step) (v : plan.step)
  : Prop :=
  match m with
  | None => v = None
  | Some (out, i', st') =>
    grown st st' /\ tidy st' i' /\ (is_table i -> is_table i') /\
    match out with
    | Ret s => valid st' s /\ (is_table i -> full st' s)
    | _ => True
    end /\
    v = Some (erase_outcome st' out, erase st' i')
  end.

(** Every join of [p] has a table as its left child. *)
Fixpoint right_deep (p : plan.Node) : Prop :=
  match p with
  | plan.NTable _ => True
  | plan.CrossJoin (plan.NTable _) Right => right_deep Right
  | plan.CrossJoin (plan.CrossJoin _ _) _ => False
  end.

End memory.

(** * Example leaves and conversions

    Concrete instances on which the definitions are run. *)

Module examples.

Import expression plan.

(** A literal: resolved, evaluates to its value. *)
Definition Literal (name : string) (v : Value) : Expression :=
  ELeaf (mkLeaf name true (fun _ => Ret v)).

(** A column reference that is not bound yet. *)
Definition UnresolvedColumn (name : string) : Expression :=
  ELeaf (mkLeaf name false (fun _ => Err (ErrExternal "unresolved column"))).

(** A leaf whose evaluation fails. *)
Definition Failing (name : string) (e : error) : Expression :=
  ELeaf (mkLeaf name true (fun _ => Err e)).

(** Conversions that accept the values already of the right kind. *)
#[export] Instance conversions : TypeSystem := {|
  Blob_Convert v :=
    match v with
    | VBlob b => inr b
    | VText s => inr (list_byte_of_string s)
    | _ => inl (ErrExternal "not a blob")
    end;
  Int64_Convert v :=
    match v with
    | VInt64 z => inr z
    | VInt32 z => inr z
    | _ => inl (ErrExternal "not an integer")
    end;
  Date_Convert v :=
    match v with
    | VTime t => inr t
    | _ => inl (ErrExternal "not a date")
    end
|}.

Definition abcde : Expression := Literal "str" (VText "abcde").
Definition int (name : string) (z : Z) : Expression := Literal name (VInt64 z).

(** A table of the given rows that opens and closes without error. *)
Definition table (name : string) (rows : list Row) : Node :=
  NTable (mkTable name [] true None (map inr rows) None).

(** A table whose [RowIter()] fails. *)
Definition broken_table (name : string) (e : error) : Node :=
  NTable (mkTable name [] true (Some e) [] None).

Definition row1 (z : Z) : Row := RowOf [VInt64 z].

End examples.

(** * Properties of package expression *)

Module expression_facts.

Import expression examples.

(** ** Induction on expression trees *)

Lemma Expression_tree_ind (P : Expression -> Prop)
  (Hleaf : forall l, P (ELeaf l))
  (Hbin : forall c, P c -> P (IsBinary c))
  (Hsub : forall s st len, P s -> P st ->
            match len with Some ln => P ln | None => True end ->
            P (Substring s st len))
  (Hyear : forall c, P c -> P (Year c)) :
  forall e, P e.
Proof.
  fix IH 1. intros [l | c | s st len | c].
  - apply Hleaf.
  - apply Hbin, IH.
  - apply Hsub; [apply IH | apply IH |].
    destruct len as [ln |]; [apply IH | exact I].
  - apply Hyear, IH.
Qed.

(** ** The evaluation monad *)

Lemma bind_Ret {A B} t (a : A) (k : A -> ev B) :
  bind (t, Ret a) k = (t ++ fst (k a), snd (k a)).
Proof. unfold bind. destruct (k a); reflexivity. Qed.

Lemma bind_Err {A B} t e (k : A -> ev B) : bind (t, Err e) k = (t, Err e).
Proof. reflexivity. Qed.

Lemma bind_Panic {A B} t m (k : A -> ev B) :
  bind (t, Panic m) k = (t, Panic m).
Proof. reflexivity. Qed.

(** ** Fixed-width integers *)

Lemma wrap_range w z : 0 < w -> - 2 ^ (w - 1) <= wrap w z < 2 ^ (w - 1).
Proof.
  intros Hw. unfold wrap.
  assert (H2 : 2 ^ w = 2 * 2 ^ (w - 1)).
  { replace w with (Z.succ (w - 1)) at 1 by lia. apply Z.pow_succ_r. lia. }
  assert (Hp : 0 < 2 ^ (w - 1)) by (apply Z.pow_pos_nonneg; lia).
  pose proof (Z.mod_pos_bound (z + 2 ^ (w - 1)) (2 ^ w)). lia.
Qed.

Lemma wrap_small w z :
  0 < w -> - 2 ^ (w - 1) <= z < 2 ^ (w - 1) -> wrap w z = z.
Proof.
  intros Hw Hz. unfold wrap.
  assert (H2 : 2 ^ w = 2 * 2 ^ (w - 1)).
  { replace w with (Z.succ (w - 1)) at 1 by lia. apply Z.pow_succ_r. lia. }
  rewrite Z.mod_small; lia.
Qed.

Lemma int32_range z : is_int32 (int32 z).
Proof.
  unfold is_int32, int32. pose proof (wrap_range 32 z ltac:(lia)).
  change (2 ^ (32 - 1)) with 2147483648 in H. lia.
Qed.

Lemma int32_small z : is_int32 z -> int32 z = z.
Proof.
  unfold is_int32, int32. intros H. apply wrap_small; [lia |].
  change (2 ^ (32 - 1)) with 2147483648. lia.
Qed.

Lemma int64_small z : is_int64 z -> int64 z = z.
Proof.
  unfold is_int64, int64, MinInt64, MaxInt64. intros H.
  apply wrap_small; [lia |].
  change (2 ^ (64 - 1)) with 9223372036854775808. lia.
Qed.

(** ** IsBinary *)

Lemma IndexByte_ge data c : -1 <= IndexByte data c.
Proof.
  induction data as [| b rest IH]; simpl; [lia |].
  destruct (Byte.eqb b c); [lia |].
  destruct (IndexByte rest c =? -1); lia.
Qed.

Lemma IndexByte_absent data c : IndexByte data c = -1 <-> ~ In c data.
Proof.
  induction data as [| b rest IH]; simpl.
  - split; auto.
  - destruct (Byte.eqb b c) eqn:E.
    + apply Byte.byte_dec_bl in E. split; [lia | intros H; exfalso; auto].
    + assert (b <> c).
      { intros ->. rewrite Byte.byte_dec_lb in E by reflexivity. discriminate. }
      pose proof (IndexByte_ge rest c).
      destruct (IndexByte rest c =? -1) eqn:E1.
      * apply Z.eqb_eq in E1. split; [| reflexivity].
        intros _ [H1 | H1]; [auto | apply IH in E1; auto].
      * apply Z.eqb_neq in E1. split; [lia |].
        intros Hn. exfalso. apply E1, IH. auto.
Qed.

Lemma In_firstn {A} (x : A) n l :
  In x (firstn n l) <-> exists i, (i < n)%nat /\ nth_error l i = Some x.
Proof.
  revert l. induction n as [| n IH]; intros l.
  - simpl. split; [tauto | intros (i & Hi & _); lia].
  - destruct l as [| a l]; simpl.
    + split; [tauto | intros (i & _ & Hi); destruct i; discriminate].
    + rewrite IH. split.
      * intros [-> | (i & Hi & Hn)].
        -- exists 0%nat. split; [lia | reflexivity].
        -- exists (S i). split; [lia | exact Hn].
      * intros ([| i] & Hi & Hn); simpl in Hn.
        -- left. congruence.
        -- right. exists i. split; [lia | exact Hn].
Qed.

Lemma isBinary_firstn data :
  isBinary data = negb (IndexByte (firstn sniffLen data) x00 =? -1).
Proof.
  unfold isBinary.
  destruct (sniffLen <? List.length data)%nat eqn:E.
  - destruct (_ =? -1); reflexivity.
  - apply Nat.ltb_ge in E. rewrite firstn_all2 by exact E.
    destruct (_ =? -1); reflexivity.
Qed.

Lemma isBinary_true data :
  isBinary data = true <->
  exists i, (i < sniffLen)%nat /\ nth_error data i = Some x00.
Proof.
  rewrite isBinary_firstn, <- In_firstn.
  destruct (IndexByte (firstn sniffLen data) x00 =? -1) eqn:E; simpl.
  - apply Z.eqb_eq, IndexByte_absent in E. split; [discriminate | tauto].
  - apply Z.eqb_neq in E. split; [intros _ | reflexivity].
    destruct (in_dec Byte.byte_eq_dec x00 (firstn sniffLen data)) as [H | H];
      [exact H | apply IndexByte_absent in H; contradiction].
Qed.

Lemma isBinary_window data :
  isBinary data = true <->
  exists i, Z.of_nat i < 8000 /\ nth_error data i = Some x00.
Proof.
  rewrite isBinary_true. unfold sniffLen.
  split; intros (i & Hi & Hn); exists i; (split; [lia | exact Hn]).
Qed.

(** C3.  [IsBinary.Eval]: a nil child value gives [false]; any other
    value, once the Blob conversion has turned it into the bytes [b],
    gives [true] exactly when a zero byte stands at one of the first 8000
    positions of [b].  A zero byte found only from position 8000 on is
    not seen. *)
Theorem IsBinary_Eval_spec `{TypeSystem} (Child : Expression) (row : Row)
  (t : list string) (v : Value) :
  Eval Child row = (t, Ret v) ->
  (v = VNil -> Eval (IsBinary Child) row = (t, Ret (VBool false))) /\
  (forall b, v <> VNil -> Blob_Convert v = inr b ->
     Eval (IsBinary Child) row = (t, Ret (VBool (isBinary b))) /\
     (isBinary b = true <->
      exists i, Z.of_nat i < 8000 /\ nth_error b i = Some x00) /\
     ((forall i, nth_error b i = Some x00 -> 8000 <= Z.of_nat i) ->
      isBinary b = false)).
Proof.
  intros HChild. split.
  - intros ->. cbn [Eval]. rewrite HChild. cbn. now rewrite app_nil_r.
  - intros b Hv Hb. split; [| split].
    + cbn [Eval]. rewrite HChild.
      destruct v; try contradiction; cbn; rewrite Hb; cbn;
        now rewrite app_nil_r.
    + apply isBinary_window.
    + intros Hfar. destruct (isBinary b) eqn:E; [| reflexivity].
      apply isBinary_window in E. destruct E as (i & Hi & Hn).
      apply Hfar in Hn. lia.
Qed.

Lemma IsBinary_Eval_spec_witness :
  Eval (IsBinary (Literal "blob" (VBlob [x68; x69; x00; x21]))) RowNil
  = (["blob"], Ret (VBool true)).
Proof.
  destruct (IsBinary_Eval_spec (Literal "blob" (VBlob [x68; x69; x00; x21]))
              RowNil ["blob"] (VBlob [x68; x69; x00; x21]) eq_refl)
    as [_ Hblob].
  destruct (Hblob [x68; x69; x00; x21] ltac:(discriminate) eq_refl)
    as [Heval _].
  exact Heval.
Defined.

(** The examples of the specification for [IsBinary]. *)
Example IsBinary_nil :
  Eval (IsBinary (Literal "v" VNil)) RowNil = (["v"], Ret (VBool false)).
Proof. reflexivity. Qed.

Example IsBinary_hello :
  Eval (IsBinary (Literal "v" (VText "hello"))) RowNil
  = (["v"], Ret (VBool false)).
Proof. reflexivity. Qed.

Example isBinary_zero_at_3 : isBinary [x61; x62; x63; x00; x64] = true.
Proof. reflexivity. Qed.

Example isBinary_zero_at_8050 :
  isBinary (repeat x61 (Z.to_nat 8050) ++ [x00]) = false.
Proof. vm_compute. reflexivity. Qed.

(** ** Year *)

(** C6.  [Year.Eval]: a nil child value gives nil; any other value, once
    the Date conversion has turned it into the timestamp [d], gives the
    year of [d] as an [int32] (the year itself whenever it fits 32 bits);
    when the conversion fails its error is returned. *)
Theorem Year_Eval_spec `{TypeSystem} (Child : Expression) (row : Row)
  (t : list string) (v : Value) :
  Eval Child row = (t, Ret v) ->
  (v = VNil -> Eval (Year Child) row = (t, Ret VNil)) /\
  (forall d, v <> VNil -> Date_Convert v = inr d ->
     Eval (Year Child) row = (t, Ret (VInt32 (int32 (Time_Year d)))) /\
     is_int32 (int32 (Time_Year d)) /\
     (is_int32 (Time_Year d) -> int32 (Time_Year d) = Time_Year d)) /\
  (forall e, v <> VNil -> Date_Convert v = inl e ->
     Eval (Year Child) row = (t, Err e)).
Proof.
  intros HChild. split; [| split].
  - intros ->. cbn [Eval]. rewrite HChild. cbn. now rewrite app_nil_r.
  - intros d Hv Hd. split; [| split].
    + cbn [Eval]. rewrite HChild.
      destruct v; try contradiction; cbn; rewrite Hd; cbn;
        now rewrite app_nil_r.
    + apply int32_range.
    + apply int32_small.
  - intros e Hv He. cbn [Eval]. rewrite HChild.
    destruct v; try contradiction; cbn; rewrite He; cbn;
      now rewrite app_nil_r.
Qed.

Lemma Year_Eval_spec_witness :
  Eval (Year (Literal "d" (VTime (mkTime 2021 7 4 0)))) RowNil
  = (["d"], Ret (VInt32 2021)).
Proof.
  destruct (Year_Eval_spec (Literal "d" (VTime (mkTime 2021 7 4 0)))
              RowNil ["d"] (VTime (mkTime 2021 7 4 0)) eq_refl)
    as (_ & Hdate & _).
  destruct (Hdate (mkTime 2021 7 4 0) ltac:(discriminate) eq_refl)
    as [Heval _].
  exact Heval.
Defined.

Example Year_nil :
  Eval (Year (Literal "d" VNil)) RowNil = (["d"], Ret VNil).
Proof. reflexivity. Qed.

Example Year_unparseable :
  Eval (Year (Literal "d" (VText "not a date"))) RowNil
  = (["d"], Err (ErrExternal "not a date")).
Proof. reflexivity. Qed.

(** ** Substring *)

Lemma Substring_Eval_2 `{TypeSystem} str start row t1 t2 s v2 st :
  Eval str row = (t1, Ret (VText s)) ->
  Eval start row = (t2, Ret v2) ->
  Int64_Convert v2 = inr st ->
  Eval (Substring str start None) row
  = (t1 ++ t2,
     Substring_cut (runes_of_string s) st
       (Z.of_nat (List.length (runes_of_string s)))).
Proof.
  intros H1 H2 H3. cbn [Eval]. rewrite H1. cbn. rewrite H2. cbn.
  rewrite H3. cbn. now rewrite !app_nil_r.
Qed.

Lemma Substring_Eval_3 `{TypeSystem} str start ln row t1 t2 t3 s v2 v3 st n :
  Eval str row = (t1, Ret (VText s)) ->
  Eval start row = (t2, Ret v2) ->
  Int64_Convert v2 = inr st ->
  Eval ln row = (t3, Ret v3) ->
  Int64_Convert v3 = inr n ->
  Eval (Substring str start (Some ln)) row
  = (t1 ++ t2 ++ t3, Substring_cut (runes_of_string s) st n).
Proof.
  intros H1 H2 H3 H4 H5. cbn [Eval]. rewrite H1. cbn. rewrite H2. cbn.
  rewrite H3. cbn. rewrite H4. cbn. rewrite H5. cbn.
  now rewrite !app_nil_r.
Qed.

Lemma slice_inside {A} (s : list A) lo hi :
  0 <= lo <= hi -> hi <= Z.of_nat (List.length s) ->
  slice s lo hi = Ret (firstn (Z.to_nat (hi - lo)) (skipn (Z.to_nat lo) s)).
Proof.
  intros H1 H2. unfold slice.
  replace (0 <=? lo) with true by (symmetry; apply Z.leb_le; lia).
  replace (lo <=? hi) with true by (symmetry; apply Z.leb_le; lia).
  replace (hi <=? Z.of_nat (List.length s)) with true
    by (symmetry; apply Z.leb_le; lia).
  reflexivity.
Qed.

Lemma slice_backwards {A} (s : list A) lo hi :
  hi < lo -> slice s lo hi = Panic "slice bounds out of range".
Proof.
  intros H1. unfold slice.
  replace (lo <=? hi) with false by (symmetry; apply Z.leb_gt; lia).
  now rewrite andb_false_r.
Qed.

Lemma add64_overflow a b :
  0 <= a <= MaxInt64 -> 0 <= b <= MaxInt64 -> MaxInt64 < a + b ->
  add64 a b = a + b - 2 ^ 64 /\ add64 a b < 0.
Proof.
  unfold add64, int64, wrap, MaxInt64. intros Ha Hb Hab.
  change (2 ^ (64 - 1)) with 9223372036854775808.
  change (2 ^ 64) with 18446744073709551616.
  assert (E : (a + b + 9223372036854775808) mod 18446744073709551616
              = a + b - 9223372036854775808).
  { symmetry. apply Z.mod_unique_pos with (q := 1); lia. }
  rewrite E. lia.
Qed.

(** What the end of [Substring.Eval] computes, for a text of [n] runes:
    the empty text when the start index or the length is out of range;
    the runes from the start index on, [length] of them or as many as
    are left; and a panic when start index plus length exceeds the
    largest [int64]. *)
Lemma Substring_cut_spec (text : list rune) (start length : Z) :
  is_int64 start -> is_int64 length ->
  Z.of_nat (List.length text) <= MaxInt64 ->
  let n := Z.of_nat (List.length text) in
  let startIdx := if start <? 0 then n + start else start - 1 in
  (startIdx < 0 \/ n <= startIdx \/ length <= 0 ->
   Substring_cut text start length = Ret (VText "")) /\
  (0 <= startIdx < n -> 0 < length -> startIdx + length <= MaxInt64 ->
   Substring_cut text start length
   = Ret (VText (string_of_runes
                   (firstn (Z.to_nat (Z.min length (n - startIdx)))
                           (skipn (Z.to_nat startIdx) text))))) /\
  (0 <= startIdx < n -> 0 < length -> MaxInt64 < startIdx + length ->
   Substring_cut text start length = Panic "slice bounds out of range").
Proof.
  intros Hs Hl Hn n startIdx.
  assert (Hidx : (if start <? 0 then add64 n start else sub64 start 1)
                 = startIdx).
  { unfold startIdx, add64, sub64. unfold is_int64, MinInt64, MaxInt64 in *.
    destruct (start <? 0) eqn:E;
      [apply Z.ltb_lt in E | apply Z.ltb_ge in E];
      apply int64_small; unfold is_int64, MinInt64, MaxInt64; lia. }
  unfold Substring_cut. fold n. rewrite Hidx.
  unfold is_int64, MinInt64, MaxInt64 in *.
  split; [| split].
  - intros Hout.
    destruct (startIdx <? 0) eqn:E1; [reflexivity |].
    destruct (n <=? startIdx) eqn:E2; [reflexivity |].
    destruct (length <=? 0) eqn:E3; [reflexivity |].
    apply Z.ltb_ge in E1. apply Z.leb_gt in E2, E3. lia.
  - intros Hin Hpos Hsum.
    replace (startIdx <? 0) with false by (symmetry; apply Z.ltb_ge; lia).
    replace (n <=? startIdx) with false by (symmetry; apply Z.leb_gt; lia).
    replace (length <=? 0) with false by (symmetry; apply Z.leb_gt; lia).
    cbn [orb].
    assert (Hadd : add64 startIdx length = startIdx + length).
    { apply int64_small. unfold is_int64, MinInt64, MaxInt64. lia. }
    rewrite Hadd.
    destruct (n <? startIdx + length) eqn:E.
    + apply Z.ltb_lt in E.
      assert (Hsub : sub64 n startIdx = n - startIdx).
      { apply int64_small. unfold is_int64, MinInt64, MaxInt64. lia. }
      rewrite Hsub.
      assert (Hadd' : add64 startIdx (n - startIdx) = n).
      { unfold add64. replace (startIdx + (n - startIdx)) with n by lia.
        apply int64_small. unfold is_int64, MinInt64, MaxInt64. lia. }
      rewrite Hadd'. rewrite slice_inside by (unfold n; lia).
      rewrite Z.min_r by lia. reflexivity.
    + apply Z.ltb_ge in E. rewrite Hadd.
      rewrite slice_inside by (fold n; lia).
      rewrite Z.min_l by lia.
      replace (startIdx + length - startIdx) with length by lia.
      reflexivity.
  - intros Hin Hpos Hsum.
    replace (startIdx <? 0) with false by (symmetry; apply Z.ltb_ge; lia).
    replace (n <=? startIdx) with false by (symmetry; apply Z.leb_gt; lia).
    replace (length <=? 0) with false by (symmetry; apply Z.leb_gt; lia).
    cbn [orb].
    destruct (add64_overflow startIdx length) as [_ Hneg];
      unfold MaxInt64; try lia.
    replace (n <? add64 startIdx length) with false
      by (symmetry; apply Z.ltb_ge; lia).
    rewrite slice_backwards by lia. reflexivity.
Qed.

(** The examples of the specification on ["abcde"]. *)
Example Substring_abcde_2_3 :
  Eval (Substring abcde (int "start" 2) (Some (int "len" 3))) RowNil
  = (["str"; "start"; "len"], Ret (VText "bcd")).
Proof. vm_compute. reflexivity. Qed.

Example Substring_abcde_m1 :
  Eval (Substring abcde (int "start" (-1)) None) RowNil
  = (["str"; "start"], Ret (VText "e")).
Proof. vm_compute. reflexivity. Qed.

Example Substring_abcde_m2_1 :
  Eval (Substring abcde (int "start" (-2)) (Some (int "len" 1))) RowNil
  = (["str"; "start"; "len"], Ret (VText "d")).
Proof. vm_compute. reflexivity. Qed.

Example Substring_abcde_0_3 :
  Eval (Substring abcde (int "start" 0) (Some (int "len" 3))) RowNil
  = (["str"; "start"; "len"], Ret (VText "")).
Proof. vm_compute. reflexivity. Qed.

Example Substring_abcde_1_100 :
  Eval (Substring abcde (int "start" 1) (Some (int "len" 100))) RowNil
  = (["str"; "start"; "len"], Ret (VText "abcde")).
Proof. vm_compute. reflexivity. Qed.

(** C2.  With ["abcde"], start 2 and the largest [int64] as length, the
    start index 1 plus the length wraps around to a negative number, the
    length is not clamped, and slicing the runes panics: no text is
    returned. *)
Theorem Substring_Eval_length_overflow :
  Eval (Substring abcde (int "start" 2) (Some (int "len" MaxInt64))) RowNil
  = (["str"; "start"; "len"], Panic "slice bounds out of range").
Proof. vm_compute. reflexivity. Qed.

(** C10.  When [str] evaluates to nil, [Substring.Eval] returns nil and
    its log is the one of [str]: neither [start] nor [len] is evaluated,
    whatever they are, so none of their errors can come up. *)
Theorem Substring_Eval_nil_str `{TypeSystem} (str start : Expression)
  (len : option Expression) (row : Row) (t : list string) :
  Eval str row = (t, Ret VNil) ->
  Eval (Substring str start len) row = (t, Ret VNil).
Proof.
  intros Hstr. cbn [Eval]. rewrite Hstr. cbn. now rewrite app_nil_r.
Qed.

Lemma Substring_Eval_nil_str_witness :
  Eval (Literal "str" VNil) RowNil = (["str"], Ret VNil) /\
  Eval (Failing "start" (ErrExternal "boom")) RowNil
  = (["start"], Err (ErrExternal "boom")) /\
  Eval (Substring (Literal "str" VNil)
          (Failing "start" (ErrExternal "boom"))
          (Some (Literal "len" (VText "x")))) RowNil
  = (["str"], Ret VNil).
Proof.
  split; [reflexivity | split; [reflexivity |]].
  apply (Substring_Eval_nil_str (Literal "str" VNil)
           (Failing "start" (ErrExternal "boom"))
           (Some (Literal "len" (VText "x"))) RowNil ["str"]).
  reflexivity.
Defined.

Lemma Substring_cut_no_error text start length e :
  Substring_cut text start length <> Err e.
Proof.
  unfold Substring_cut, slice.
  repeat match goal with
         | |- context [if ?b then _ else _] => destruct b
         end; discriminate.
Qed.

Lemma bind_Err_inv {A B} (m : ev A) (k : A -> ev B) t e :
  bind m k = (t, Err e) ->
  (exists t', m = (t', Err e)) \/
  (exists t1 a t2, m = (t1, Ret a) /\ k a = (t2, Err e)).
Proof.
  destruct m as [t1 [a | e1 | m1]]; cbn.
  - destruct (k a) as [t2 r] eqn:E. intros HE. injection HE as _ ->.
    right. eauto.
  - intros HE. injection HE as _ ->. left. eauto.
  - discriminate.
Qed.

Lemma lift_Err_inv {A} (r : error + A) t e :
  lift r = (t, Err e) -> r = inl e.
Proof. destruct r; cbn; intros HE; now inversion HE. Qed.

(** Where an error of [Substring.Eval] comes from: the evaluation of a
    child, the conversion of [start] or [len] to [int64], or the type
    of the value of [str]. *)
Lemma Substring_Eval_error_origin `{TypeSystem} str start len row t e :
  Eval (Substring str start len) row = (t, Err e) ->
  (exists c, In c (Children (Substring str start len)) /\
             snd (Eval c row) = Err e) \/
  (exists v, Int64_Convert v = inl e) \/
  (exists ty, e = ErrInvalidType ty).
Proof.
  intros HE. cbn [Eval] in HE.
  assert (Hin_str : In str (Children (Substring str start len)))
    by (destruct len; cbn; auto).
  assert (Hin_start : In start (Children (Substring str start len)))
    by (destruct len; cbn; auto).
  apply bind_Err_inv in HE as [(t1 & E1) | (t1 & v1 & t2 & E1 & HE)];
    [left; exists str; rewrite E1; auto |].
  destruct v1; cbn in HE;
    try (injection HE as _ <-; right; right; eauto; fail);
    try discriminate;
    (apply bind_Err_inv in HE as [(t3 & E2) | (t3 & v2 & t4 & E2 & HE)];
     [left; exists start; rewrite E2; auto |];
     apply bind_Err_inv in HE as [(t5 & C2) | (t5 & st & t6 & C2 & HE)];
     [apply lift_Err_inv in C2; right; left; eauto |];
     apply bind_Err_inv in HE as [(t7 & E3) | (t7 & n & t8 & E3 & HE)];
     [| unfold lift_outcome in HE; injection HE as _ HE;
        now apply Substring_cut_no_error in HE];
     destruct len as [ln |]; [| discriminate];
     apply bind_Err_inv in E3 as [(t9 & E3) | (t9 & v3 & t10 & E3 & C3)];
     [left; exists ln; rewrite E3; cbn; auto
     | apply lift_Err_inv in C3; right; left; eauto]).
Qed.

(** C5.  [NewSubstring] with an argument count other than 2 and 3
    returns the arity error and no expression (it takes no row: nothing
    is evaluated).  With 2 or 3 arguments it returns the expression over
    these arguments, and evaluating that expression never raises an
    arity error of its own: one can only be passed on from the
    evaluation of an argument or from the [int64] conversion. *)
Theorem NewSubstring_arity `{TypeSystem} (args : list Expression) :
  (List.length args <> 2%nat -> List.length args <> 3%nat ->
   NewSubstring args
   = inl (ErrInvalidArgumentNumber "2 or 3" (List.length args))) /\
  (List.length args = 2%nat \/ List.length args = 3%nat ->
   exists sub,
     NewSubstring args = inr sub /\ Children sub = args /\
     forall row t e,
       Eval sub row = (t, Err e) -> is_arity_error e = true ->
       (exists c, In c args /\ snd (Eval c row) = Err e) \/
       (exists v, Int64_Convert v = inl e)).
Proof.
  split.
  - intros H2 H3.
    destruct args as [| a [| b [| c [| d rest]]]]; cbn in *;
      try reflexivity; contradiction.
  - intros Hlen.
    assert (Hsub : forall str start len row t e,
      Eval (Substring str start len) row = (t, Err e) ->
      is_arity_error e = true ->
      (exists c, In c (Children (Substring str start len)) /\
                 snd (Eval c row) = Err e) \/
      (exists v, Int64_Convert v = inl e)).
    { intros str start len row t e HE Ha.
      destruct (Substring_Eval_error_origin _ _ _ _ _ _ HE)
        as [Hc | [Hv | [ty ->]]]; auto; discriminate. }
    destruct args as [| a [| b [| c [| d rest]]]]; cbn in Hlen;
      try (destruct Hlen; discriminate).
    + exists (Substring a b None). repeat split. apply Hsub.
    + exists (Substring a b (Some c)). repeat split. apply Hsub.
Qed.

Lemma NewSubstring_arity_witness :
  NewSubstring [abcde]
  = inl (ErrInvalidArgumentNumber "2 or 3" 1) /\
  NewSubstring [abcde; int "a" 1; int "b" 2; int "c" 3]
  = inl (ErrInvalidArgumentNumber "2 or 3" 4) /\
  exists sub, NewSubstring [abcde; int "start" 2] = inr sub.
Proof.
  split; [| split].
  - apply (proj1 (NewSubstring_arity [abcde])); cbn; lia.
  - apply (proj1 (NewSubstring_arity
                    [abcde; int "a" 1; int "b" 2; int "c" 3])); cbn; lia.
  - destruct (proj2 (NewSubstring_arity [abcde; int "start" 2])
                (or_introl eq_refl)) as (sub & Hsub & _).
    exists sub. exact Hsub.
Defined.

(** C9.  [Substring.Resolved] answers [true] for every [Substring],
    also for one over a column that is not resolved. *)
Theorem Substring_Resolved_ignores_children :
  (forall str start len, Resolved (Substring str start len) = true) /\
  Resolved (UnresolvedColumn "name") = false /\
  Resolved (Substring (UnresolvedColumn "name") (int "start" 1) None) = true.
Proof. repeat split. Qed.

(** ** TransformUp *)

Lemma NewSubstring_2 str start :
  discard_error (NewSubstring [str; start]) = Substring str start None.
Proof. reflexivity. Qed.

Lemma NewSubstring_3 str start ln :
  discard_error (NewSubstring [str; start; ln])
  = Substring str start (Some ln).
Proof. reflexivity. Qed.

(** [Substring.TransformUp] never meets the error of [NewSubstring]. *)
Lemma TransformUp_Substring f str start len :
  TransformUp f (Substring str start len)
  = f (Substring (TransformUp f str) (TransformUp f start)
         (option_map (TransformUp f) len)).
Proof. destruct len; reflexivity. Qed.

Lemma TransformUp_id (e : Expression) : TransformUp (fun x => x) e = e.
Proof.
  induction e as [l | c IH | s st len IHs IHst IHlen | c IH]
    using Expression_tree_ind.
  - reflexivity.
  - cbn. unfold NewIsBinary. now rewrite IH.
  - rewrite TransformUp_Substring, IHs, IHst.
    destruct len as [ln |]; cbn; [now rewrite IHlen | reflexivity].
  - cbn. unfold NewYear. now rewrite IH.
Qed.

End expression_facts.

(** * Properties of package plan *)

Module plan_facts.

Import plan examples.

(** ** More fuel changes no result *)

Lemma fillRows_mono next1 next2 f1 : extends next1 next2 ->
  forall f2 ri acc y, (f1 <= f2)%nat ->
  fillRows next1 f1 ri acc = Some y -> fillRows next2 f2 ri acc = Some y.
Proof.
  intros Hext. induction f1 as [| f1 IH]; intros f2 ri acc y Hle Hfill;
    [discriminate |].
  destruct f2 as [| f2]; [lia |]. cbn [fillRows] in *.
  destruct (next1 ri) as [[[rr | err | msg] ri'] |] eqn:E; [| | | discriminate];
    rewrite (Hext _ _ E); [| exact Hfill | exact Hfill].
  apply IH; [lia | exact Hfill].
Qed.

Lemma Next_row_mono next1 next2 li ri rightRows index leftRow x :
  extends next1 next2 ->
  Next_row next1 li ri rightRows index leftRow = Some x ->
  Next_row next2 li ri rightRows index leftRow = Some x.
Proof.
  intros Hext. unfold Next_row. destruct (is_nil leftRow); [| exact id].
  destruct (next1 li) as [[[lr | err | msg] li'] |] eqn:E; [| | | discriminate];
    rewrite (Hext _ _ E); exact id.
Qed.

Lemma crossJoinIterator_Next_mono next1 next2 f1 f2 li ri rightRows index
  leftRow x :
  extends next1 next2 -> (f1 <= f2)%nat ->
  crossJoinIterator_Next next1 f1 li ri rightRows index leftRow = Some x ->
  crossJoinIterator_Next next2 f2 li ri rightRows index leftRow = Some x.
Proof.
  intros Hext Hle. unfold crossJoinIterator_Next.
  destruct rightRows as [| r0 rs]; [| apply Next_row_mono; exact Hext].
  destruct (fillRows next1 f1 ri []) as [[[out ri'] rows'] |] eqn:E;
    [| discriminate].
  rewrite (fillRows_mono _ _ _ Hext _ _ _ _ Hle E).
  destruct out as [[] | err | msg]; [| exact id].
  destruct (is_EOF err); [| exact id].
  destruct rows'; [exact id | apply Next_row_mono; exact Hext].
Qed.

Lemma Next_mono f1 : forall f2, (f1 <= f2)%nat -> extends (Next f1) (Next f2).
Proof.
  induction f1 as [| f1 IH]; intros f2 Hle i x Hnext; [discriminate |].
  destruct f2 as [| f2]; [lia |].
  destruct i as [id pending close | li ri rightRows index leftRow];
    [exact Hnext |].
  cbn [Next] in *.
  apply crossJoinIterator_Next_mono with (next1 := Next f1) (f1 := f1);
    [apply IH; lia | lia | exact Hnext].
Qed.

Lemma drain_mono f1 : forall f2 i y, (f1 <= f2)%nat ->
  drain f1 i = Some y -> drain f2 i = Some y.
Proof.
  induction f1 as [| f1 IH]; intros f2 i y Hle Hd; [discriminate |].
  destruct f2 as [| f2]; [lia |]. cbn [drain] in *.
  destruct (Next f1 i) as [[[row | err | msg] i'] |] eqn:E;
    try discriminate;
    rewrite (Next_mono f1 f2 ltac:(lia) _ _ E); [| exact Hd].
  destruct (drain f1 i') as [[rows err] |] eqn:E'; [| discriminate].
  now rewrite (IH f2 i' _ ltac:(lia) E').
Qed.

(** ** Yielding and draining *)

Lemma drain_Yields fuel : forall i rows,
  drain fuel i = Some (rows, io_EOF) -> Yields i rows.
Proof.
  induction fuel as [| fuel IH]; intros i rows Hd; [discriminate |].
  cbn [drain] in Hd.
  destruct (Next fuel i) as [[[row | err | msg] i'] |] eqn:E;
    try discriminate.
  - destruct (drain fuel i') as [[rows' err] |] eqn:E'; [| discriminate].
    injection Hd as <- ->.
    eapply Yields_row; [exact E | apply IH; exact E'].
  - injection Hd as <- ->. eapply Yields_EOF; exact E.
Qed.

Lemma Yields_drain i rows : Yields i rows ->
  exists F, forall fuel, (F <= fuel)%nat -> drain fuel i = Some (rows, io_EOF).
Proof.
  induction 1 as [i i' f Hn | i i' f row rows Hn _ [F IH]].
  - exists (S f). intros fuel Hle. destruct fuel as [| fuel]; [lia |].
    cbn [drain]. now rewrite (Next_mono f fuel ltac:(lia) _ _ Hn).
  - exists (S (Nat.max f F)). intros fuel Hle.
    destruct fuel as [| fuel]; [lia |]. cbn [drain].
    rewrite (Next_mono f fuel ltac:(lia) _ _ Hn).
    now rewrite (IH fuel ltac:(lia)).
Qed.

(** ** Schema *)

Lemma CrossJoin_Schema_length Left Right :
  List.length (Node_Schema (CrossJoin Left Right))
  = (List.length (Node_Schema Left) + List.length (Node_Schema Right))%nat.
Proof. cbn [Node_Schema]. apply length_app. Qed.

(** ** The rows of the cross join

    Rows are taken here for the values they hold, as if no two rows
    shared an array.  Whether the rows in memory read the same is the
    matter of [memory_facts]: they do when every join has a table as
    left child, and not in general. *)

Lemma append_RowOf l vs : append (RowOf l) vs = RowOf (l ++ vs).
Proof. destruct vs; cbn; [now rewrite app_nil_r | reflexivity]. Qed.

Lemma cross_cons l Ls Rs :
  cross (l :: Ls) Rs = map (fun r => RowOf (l ++ values r)) Rs ++ cross Ls Rs.
Proof. reflexivity. Qed.

Lemma cross_nil_r Ls : cross Ls [] = [].
Proof. induction Ls as [| l Ls IH]; [reflexivity | exact IH]. Qed.

Lemma cross_length Ls Rs :
  List.length (cross Ls Rs) = (List.length Ls * List.length Rs)%nat.
Proof.
  induction Ls as [| l Ls IH]; [reflexivity |].
  rewrite cross_cons, length_app, length_map, IH. reflexivity.
Qed.

Lemma cross_nth Ls Rs : forall a b l r,
  nth_error Ls a = Some l -> nth_error Rs b = Some r ->
  nth_error (cross Ls Rs) (a * List.length Rs + b)
  = Some (RowOf (l ++ values r)).
Proof.
  induction Ls as [| l0 Ls IH]; intros a b l r Ha Hb;
    [destruct a; discriminate |].
  rewrite cross_cons. destruct a as [| a]; cbn in Ha.
  - injection Ha as ->. cbn [Nat.mul Nat.add].
    rewrite nth_error_app1.
    + rewrite nth_error_map, Hb. reflexivity.
    + rewrite length_map. apply nth_error_Some. congruence.
  - rewrite nth_error_app2 by (rewrite length_map; cbn; lia).
    rewrite length_map.
    replace (S a * List.length Rs + b - List.length Rs)%nat
      with (a * List.length Rs + b)%nat by (cbn; lia).
    now apply IH.
Qed.

(** The loop of [fillRows] over an iterator that yields [Rs] appends
    them all and leaves with [io.EOF]. *)
Lemma fillRows_Yields ri Rs : Yields ri Rs ->
  forall acc, exists F ri', forall fuel k, (F <= fuel)%nat -> (F <= k)%nat ->
    fillRows (Next fuel) k ri acc = Some (Err io_EOF, ri', acc ++ Rs).
Proof.
  induction 1 as [i i' f Hn | i i' f row rows Hn _ IH]; intros acc.
  - exists (S f), i'. intros fuel k Hfuel Hk.
    destruct k as [| k]; [lia |]. cbn [fillRows].
    rewrite (Next_mono f fuel ltac:(lia) _ _ Hn). now rewrite app_nil_r.
  - destruct (IH (acc ++ [row])) as (F & ri' & HF).
    exists (S (Nat.max f F)), ri'. intros fuel k Hfuel Hk.
    destruct k as [| k]; [lia |]. cbn [fillRows].
    rewrite (Next_mono f fuel ltac:(lia) _ _ Hn).
    rewrite (HF fuel k ltac:(lia) ltac:(lia)). now rewrite <- app_assoc.
Qed.

(** With a left row held, a call returns it joined to the right row at
    [index] and moves on. *)
Lemma Next_row_held next li ri Rs k l rr :
  nth_error Rs k = Some rr ->
  Next_row next li ri Rs k (RowOf l)
  = Some (Ret (RowOf (l ++ values rr)),
          if (List.length Rs <=? S k)%nat
          then crossJoinIterator li ri Rs 0 RowNil
          else crossJoinIterator li ri Rs (S k) (RowOf l)).
Proof.
  intros Hnth. unfold Next_row. cbn [is_nil]. rewrite Hnth, append_RowOf.
  destruct (List.length Rs <=? S k)%nat; reflexivity.
Qed.

(** With no left row held, a call that pulls the row [l] goes on as if
    [l] had been held. *)
Lemma Next_row_pull next next' li li' ri Rs index l :
  next li = Some (Ret (RowOf l), li') ->
  Next_row next li ri Rs index RowNil
  = Next_row next' li' ri Rs 0 (RowOf l).
Proof. intros Hn. unfold Next_row. cbn [is_nil]. now rewrite Hn. Qed.

Lemma Next_crossJoinIterator_filled fuel li ri r0 Rs index leftRow :
  Next (S fuel) (crossJoinIterator li ri (r0 :: Rs) index leftRow)
  = Next_row (Next fuel) li ri (r0 :: Rs) index leftRow.
Proof. reflexivity. Qed.

(** The rows still to come for the left row held, then the rest. *)
Lemma Yields_held li ri Rs l rest :
  Yields (crossJoinIterator li ri Rs 0 RowNil) rest ->
  forall d k, (k + d = List.length Rs)%nat -> (0 < d)%nat ->
  Yields (crossJoinIterator li ri Rs k (RowOf l))
    (map (fun r => RowOf (l ++ values r)) (skipn k Rs) ++ rest).
Proof.
  intros Hrest. induction d as [| d IH]; intros k Hk Hd; [lia |].
  destruct (nth_error Rs k) as [rr |] eqn:Hnth;
    [| apply nth_error_None in Hnth; lia].
  assert (Hskip : skipn k Rs = rr :: skipn (S k) Rs).
  { clear - Hnth. revert k Hnth.
    induction Rs as [| r Rs IHRs]; intros [| k] Hnth; try discriminate.
    - now injection Hnth as ->.
    - cbn in Hnth. change (skipn (S k) (r :: Rs)) with (skipn k Rs).
      now rewrite (IHRs k Hnth). }
  rewrite Hskip. cbn [map app].
  destruct Rs as [| r0 Rs']; [destruct k; discriminate |].
  eapply Yields_row with (fuel := 1%nat).
  - rewrite Next_crossJoinIterator_filled.
    apply Next_row_held. exact Hnth.
  - destruct (List.length (r0 :: Rs') <=? S k)%nat eqn:E.
    + apply Nat.leb_le in E. rewrite skipn_all2 by exact E. exact Hrest.
    + apply Nat.leb_gt in E. apply IH; lia.
Qed.

(** Once the right rows are buffered, the rows of the join come out
    left row by left row. *)
Lemma Yields_filled ri r0 Rs' : forall Ls li,
  Yields li (map RowOf Ls) ->
  Yields (crossJoinIterator li ri (r0 :: Rs') 0 RowNil)
    (cross Ls (r0 :: Rs')).
Proof.
  induction Ls as [| l Ls IH]; intros li Hli;
    inversion Hli as [j j' fuel Hpull Hj Hout
                     | j li' fuel row rows Hpull Hrest Hj Hout]; subst.
  - eapply Yields_EOF with (fuel := S fuel).
    rewrite Next_crossJoinIterator_filled. unfold Next_row. cbn [is_nil].
    rewrite Hpull. reflexivity.
  - rewrite cross_cons.
    pose proof (Yields_held li' ri (r0 :: Rs') l _ (IH _ Hrest)
                  (List.length (r0 :: Rs')) 0%nat eq_refl
                  ltac:(cbn; lia)) as Hheld.
    cbn [skipn map app] in Hheld. cbn [map app].
    inversion Hheld as [| j j' f row rows Hn Hrows Hj Hout]; subst.
    destruct f as [| f]; [discriminate |].
    rewrite Next_crossJoinIterator_filled in Hn.
    rewrite <- (Next_row_pull (Next fuel) (Next f) li li' ri (r0 :: Rs')
                  0%nat l Hpull) in Hn.
    eapply Yields_row with (fuel := S fuel); [| exact Hrows].
    rewrite Next_crossJoinIterator_filled. exact Hn.
Qed.

(** The iterator [CrossJoin.RowIter] builds yields the rows of the
    join. *)
Lemma Yields_crossJoinIterator li ri Ls Rs :
  Yields li (map RowOf Ls) -> Yields ri Rs ->
  Yields (crossJoinIterator li ri [] 0 RowNil) (cross Ls Rs).
Proof.
  intros Hli Hri.
  destruct (fillRows_Yields ri Rs Hri []) as (F & ri' & Hfill).
  cbn [app] in Hfill.
  destruct Rs as [| r0 Rs'].
  - rewrite cross_nil_r. eapply Yields_EOF with (fuel := S F).
    cbn [Next]. unfold crossJoinIterator_Next.
    rewrite (Hfill F F (le_n _) (le_n _)). reflexivity.
  - pose proof (Yields_filled ri' r0 Rs' Ls li Hli) as Hfilled.
    assert (Hstep : forall f x,
      Next_row (Next f) li ri' (r0 :: Rs') 0 RowNil = Some x ->
      Next (S (Nat.max F f)) (crossJoinIterator li ri [] 0 RowNil) = Some x).
    { intros f x Hx. cbn [Next]. unfold crossJoinIterator_Next.
      rewrite (Hfill _ _ (Nat.le_max_l F f) (Nat.le_max_l F f)).
      cbn [is_EOF].
      apply Next_row_mono with (next1 := Next f); [| exact Hx].
      apply Next_mono. lia. }
    inversion Hfilled as [j j' f Hn Hj Hout | j j' f row rows Hn Hrows Hj Hout];
      subst; (destruct f as [| f]; [discriminate |]);
      rewrite Next_crossJoinIterator_filled in Hn; apply Hstep in Hn.
    + eapply Yields_EOF. exact Hn.
    + eapply Yields_row; [exact Hn | exact Hrows].
Qed.

(** The examples of the specification for the join. *)
Example CrossJoin_2_by_2 :
  drain 10 (crossJoinIterator
             (tableIterator 0 [inr (row1 1); inr (row1 2)] None)
             (tableIterator 1 [inr (row1 10); inr (row1 20)] None)
             [] 0 RowNil)
  = Some ([RowOf [VInt64 1; VInt64 10]; RowOf [VInt64 1; VInt64 20];
           RowOf [VInt64 2; VInt64 10]; RowOf [VInt64 2; VInt64 20]],
          io_EOF).
Proof. reflexivity. Qed.

Example CrossJoin_empty_right :
  drain 10 (crossJoinIterator
             (tableIterator 0 [inr (row1 1); inr (row1 2)] None)
             (tableIterator 1 [] None) [] 0 RowNil)
  = Some ([], io_EOF).
Proof. reflexivity. Qed.

(** A join below a join: the rows of the inner join are the right rows
    of the outer one. *)
Example CrossJoin_nested :
  drain 20 (crossJoinIterator
             (tableIterator 0 [inr (row1 1); inr (row1 2)] None)
             (crossJoinIterator
                (tableIterator 1 [inr (row1 5)] None)
                (tableIterator 2 [inr (row1 7); inr (row1 8)] None)
                [] 0 RowNil)
             [] 0 RowNil)
  = Some ([RowOf [VInt64 1; VInt64 5; VInt64 7];
           RowOf [VInt64 1; VInt64 5; VInt64 8];
           RowOf [VInt64 2; VInt64 5; VInt64 7];
           RowOf [VInt64 2; VInt64 5; VInt64 8]],
          io_EOF).
Proof. reflexivity. Qed.

(** The rows above are slices that hold values.  [leftRow == nil] is how
    the iterator tells that it holds no left row, so a nil slice handed
    out by the left iterator counts as no row: it is joined to the first
    right row only. *)
Example nil_left_row_is_no_row :
  drain 10 (crossJoinIterator
             (tableIterator 0 [inr RowNil; inr (row1 2)] None)
             (tableIterator 1 [inr (row1 10); inr (row1 20)] None)
             [] 0 RowNil)
  = Some ([RowOf [VInt64 10];
           RowOf [VInt64 2; VInt64 10]; RowOf [VInt64 2; VInt64 20]],
          io_EOF).
Proof. reflexivity. Qed.

(** ** Closing *)

Lemma Close_events i : forall w,
  events (snd (Close i w)) = events w ++ map Closed (handles i) /\
  next_id (snd (Close i w)) = next_id w.
Proof.
  induction i as [id pending close | li IHl ri IHr rightRows index leftRow];
    intros w.
  - split; reflexivity.
  - cbn [Close handles].
    destruct (IHl w) as [El Nl]. destruct (Close li w) as [[err |] w1];
      cbn [snd] in El, Nl;
      destruct (IHr w1) as [Er Nr]; destruct (Close ri w1) as [er w2];
      cbn [snd] in *; rewrite Er, El, Nr, Nl, map_app, app_assoc;
      split; reflexivity.
Qed.

Lemma Close_first_error i : forall w,
  fst (Close i w) = first_error (close_results i).
Proof.
  induction i as [id pending close | li IHl ri IHr rightRows index leftRow];
    intros w.
  - cbn. now destruct close.
  - cbn [Close close_results]. specialize (IHl w).
    assert (Happ : forall a b,
      first_error (a ++ b)
      = match first_error a with
        | Some err => Some err
        | None => first_error b
        end).
    { induction a as [| [e |] a IHa]; intros b; cbn; auto. }
    rewrite Happ, <- IHl.
    destruct (Close li w) as [[err |] w1]; cbn [fst].
    + now destruct (Close ri w1).
    + apply IHr.
Qed.

(** C4.  [crossJoinIterator.Close] closes the left iterator first and
    then, in the world this leaves, the right one, whether or not the
    left close failed.  It returns the error of the left close if there
    is one, and otherwise what the right close returns: the first error
    among the closes of the tables held on the left if one of them
    fails, otherwise the first error among those on the right, and nil
    when none fails.  Each iterator held below is closed once, left to
    right. *)
Theorem crossJoinIterator_Close_both (li ri : RowIterator)
  (rightRows : list Row) (index : nat) (leftRow : Row) (w : World) :
  Close (crossJoinIterator li ri rightRows index leftRow) w
  = (match fst (Close li w) with
     | Some err => Some err
     | None => fst (Close ri (snd (Close li w)))
     end,
     snd (Close ri (snd (Close li w)))) /\
  events (snd (Close (crossJoinIterator li ri rightRows index leftRow) w))
  = events w ++ map Closed (handles li) ++ map Closed (handles ri) /\
  fst (Close (crossJoinIterator li ri rightRows index leftRow) w)
  = match first_error (close_results li) with
    | Some err => Some err
    | None => first_error (close_results ri)
    end.
Proof.
  assert (Hclose :
    Close (crossJoinIterator li ri rightRows index leftRow) w
    = (match fst (Close li w) with
       | Some err => Some err
       | None => fst (Close ri (snd (Close li w)))
       end,
       snd (Close ri (snd (Close li w))))).
  { cbn [Close]. destruct (Close li w) as [[err |] w1]; cbn [fst snd];
      destruct (Close ri w1) as [er w2]; reflexivity. }
  split; [exact Hclose | split].
  - destruct (Close_events (crossJoinIterator li ri rightRows index leftRow) w)
      as [E _].
    rewrite E. cbn [handles]. now rewrite map_app.
  - rewrite Hclose. cbn [fst].
    now rewrite (Close_first_error li w),
      (Close_first_error ri (snd (Close li w))).
Qed.

(** The left close fails and so does the right one: both tables are
    closed and the error of the left one is returned. *)
Lemma crossJoinIterator_Close_both_witness :
  Close (crossJoinIterator
           (tableIterator 0 [] (Some (ErrExternal "left")))
           (tableIterator 1 [] (Some (ErrExternal "right"))) [] 0 RowNil)
    (mkWorld 2 [Opened 0; Opened 1])
  = (Some (ErrExternal "left"),
     mkWorld 2 [Opened 0; Opened 1; Closed 0; Closed 1]) /\
  fst (Close (crossJoinIterator
                (tableIterator 0 [] None)
                (tableIterator 1 [] (Some (ErrExternal "right"))) [] 0 RowNil)
         (mkWorld 2 [Opened 0; Opened 1]))
  = Some (ErrExternal "right").
Proof.
  split.
  - exact (proj1 (crossJoinIterator_Close_both
                    (tableIterator 0 [] (Some (ErrExternal "left")))
                    (tableIterator 1 [] (Some (ErrExternal "right")))
                    [] 0 RowNil (mkWorld 2 [Opened 0; Opened 1]))).
  - exact (proj2 (proj2 (crossJoinIterator_Close_both
                           (tableIterator 0 [] None)
                           (tableIterator 1 [] (Some (ErrExternal "right")))
                           [] 0 RowNil (mkWorld 2 [Opened 0; Opened 1])))).
Defined.

(** Close propagation: the left close fails, the right one succeeds. *)
Example Close_left_fails :
  Close (crossJoinIterator
           (tableIterator 0 [] (Some (ErrExternal "left")))
           (tableIterator 1 [] None) [] 0 RowNil)
    (mkWorld 2 [Opened 0; Opened 1])
  = (Some (ErrExternal "left"),
     mkWorld 2 [Opened 0; Opened 1; Closed 0; Closed 1]).
Proof. reflexivity. Qed.

Example Close_right_fails :
  Close (crossJoinIterator
           (tableIterator 0 [] None)
           (tableIterator 1 [] (Some (ErrExternal "right"))) [] 0 RowNil)
    (mkWorld 2 [Opened 0; Opened 1])
  = (Some (ErrExternal "right"),
     mkWorld 2 [Opened 0; Opened 1; Closed 0; Closed 1]).
Proof. reflexivity. Qed.

(** ** Opening *)

(** [RowIter()] closes nothing. *)
Lemma RowIter_closes_nothing p : forall w id,
  closes id (snd (RowIter p w)) = closes id w.
Proof.
  induction p as [t | Left IHl Right IHr]; intros w id.
  - cbn [RowIter]. destruct (table_RowIter t); [reflexivity |].
    unfold closes, count_event, fresh. cbn.
    rewrite filter_app. cbn. now rewrite app_nil_r.
  - cbn [RowIter]. specialize (IHl w id).
    destruct (RowIter Left w) as [[err | li] w1]; cbn [snd] in *;
      [exact IHl |].
    specialize (IHr w1 id).
    destruct (RowIter Right w1) as [[err | ri] w2]; cbn [snd] in *;
      congruence.
Qed.

(** When the right child fails to open, [CrossJoin.RowIter] returns its
    error, no iterator, and the world as the two calls left it. *)
Lemma CrossJoin_RowIter_right_fails Left Right w li w1 err w2 :
  RowIter Left w = (inr li, w1) ->
  RowIter Right w1 = (inl err, w2) ->
  RowIter (CrossJoin Left Right) w = (inl err, w2) /\
  forall id, closes id w2 = closes id w.
Proof.
  intros HL HR. split.
  - cbn [RowIter]. now rewrite HL, HR.
  - intros id.
    pose proof (RowIter_closes_nothing Right w1 id) as H1.
    pose proof (RowIter_closes_nothing Left w id) as H2.
    rewrite HR in H1. rewrite HL in H2. cbn [snd] in *. congruence.
Qed.

(** C8.  The left table opens (iterator 0), the right one fails:
    [CrossJoin.RowIter] returns the error and no iterator, and iterator 0
    has been opened once and closed not at all. *)
Theorem CrossJoin_RowIter_leaks_left :
  let w := snd (RowIter (CrossJoin (table "l" [row1 1])
                           (broken_table "r" (ErrExternal "no such table")))
                  empty_World) in
  RowIter (CrossJoin (table "l" [row1 1])
             (broken_table "r" (ErrExternal "no such table"))) empty_World
  = (inl (ErrExternal "no such table"), mkWorld 1 [Opened 0]) /\
  opens 0 w = 1%nat /\ closes 0 w = 0%nat.
Proof. repeat split. Qed.

(** ** TransformUp *)

Lemma Node_TransformUp_id (p : Node) : TransformUp (fun x => x) p = p.
Proof.
  induction p as [t | Left IHl Right IHr]; [reflexivity |].
  cbn. unfold NewCrossJoin. now rewrite IHl, IHr.
Qed.

(** C7.  [TransformUp] with the identity gives back an equal tree, for
    expressions and for plans: the same nodes over the same children;
    in particular a [Substring] keeps its two or its three children. *)
Theorem TransformUp_identity :
  (forall e : expression.Expression,
     expression.TransformUp (fun x => x) e = e) /\
  (forall p : Node, TransformUp (fun x => x) p = p) /\
  (forall e : expression.Expression,
     List.length (expression.Children (expression.TransformUp (fun x => x) e))
     = List.length (expression.Children e)).
Proof.
  split; [| split].
  - apply expression_facts.TransformUp_id.
  - apply Node_TransformUp_id.
  - intros e. now rewrite expression_facts.TransformUp_id.
Qed.

End plan_facts.

(** * Properties of the rows in memory *)

Module memory_facts.

Import plan examples plan_facts.

(** ** More fuel changes no result *)

Lemma fillRows_mem_mono next1 next2 f1 : memory.extends next1 next2 ->
  forall f2 ri acc st y, (f1 <= f2)%nat ->
  memory.fillRows next1 f1 ri acc st = Some y ->
  memory.fillRows next2 f2 ri acc st = Some y.
Proof.
  intros Hext. induction f1 as [| f1 IH]; intros f2 ri acc st y Hle Hfill;
    [discriminate |].
  destruct f2 as [| f2]; [lia |]. cbn [memory.fillRows] in *.
  destruct (next1 ri st) as [[[[rr | err | msg] ri'] st'] |] eqn:E;
    [| | | discriminate];
    rewrite (Hext _ _ _ E); [| exact Hfill | exact Hfill].
  apply IH; [lia | exact Hfill].
Qed.

Lemma Next_row_mem_mono next1 next2 li ri rightRows index leftRow st x :
  memory.extends next1 next2 ->
  memory.Next_row next1 li ri rightRows index leftRow st = Some x ->
  memory.Next_row next2 li ri rightRows index leftRow st = Some x.
Proof.
  intros Hext. unfold memory.Next_row.
  destruct (memory.is_nil leftRow); [| exact id].
  destruct (next1 li st) as [[[[lr | err | msg] li'] st'] |] eqn:E;
    [| | | discriminate];
    rewrite (Hext _ _ _ E); exact id.
Qed.

Lemma crossJoinIterator_Next_mem_mono next1 next2 f1 f2 li ri rightRows index
  leftRow st x :
  memory.extends next1 next2 -> (f1 <= f2)%nat ->
  memory.crossJoinIterator_Next next1 f1 li ri rightRows index leftRow st
  = Some x ->
  memory.crossJoinIterator_Next next2 f2 li ri rightRows index leftRow st
  = Some x.
Proof.
  intros Hext Hle. unfold memory.crossJoinIterator_Next.
  destruct rightRows as [| r0 rs]; [| apply Next_row_mem_mono; exact Hext].
  destruct (memory.fillRows next1 f1 ri [] st) as [[[[out ri'] rows'] st'] |]
    eqn:E; [| discriminate].
  rewrite (fillRows_mem_mono _ _ _ Hext _ _ _ _ _ Hle E).
  destruct out as [[] | err | msg]; [| exact id].
  destruct (is_EOF err); [| exact id].
  destruct rows'; [exact id | apply Next_row_mem_mono; exact Hext].
Qed.

Lemma Next_mem_mono f1 : forall f2, (f1 <= f2)%nat ->
  memory.extends (memory.Next f1) (memory.Next f2).
Proof.
  induction f1 as [| f1 IH]; intros f2 Hle i st x Hnext; [discriminate |].
  destruct f2 as [| f2]; [lia |].
  destruct i as [id pending close | li ri rightRows index leftRow];
    [exact Hnext |].
  cbn [memory.Next] in *.
  apply crossJoinIterator_Next_mem_mono
    with (next1 := memory.Next f1) (f1 := f1);
    [apply IH; lia | lia | exact Hnext].
Qed.

Lemma drain_mem_mono f1 : forall f2 i st y, (f1 <= f2)%nat ->
  memory.drain f1 i st = Some y -> memory.drain f2 i st = Some y.
Proof.
  induction f1 as [| f1 IH]; intros f2 i st y Hle Hd; [discriminate |].
  destruct f2 as [| f2]; [lia |]. cbn [memory.drain] in *.
  destruct (memory.Next f1 i st) as [[[[s | err | msg] i'] st'] |] eqn:E;
    try discriminate;
    rewrite (Next_mem_mono f1 f2 ltac:(lia) _ _ _ E); [| exact Hd].
  destruct (memory.drain f1 i' st') as [[[rows err] st''] |] eqn:E';
    [| discriminate].
  now rewrite (IH f2 i' st' _ ltac:(lia) E').
Qed.

(** ** Stores that only grow *)

Lemma grown_refl st : memory.grown st st.
Proof. exists []. now rewrite app_nil_r. Qed.

Lemma grown_trans st1 st2 st3 :
  memory.grown st1 st2 -> memory.grown st2 st3 -> memory.grown st1 st3.
Proof. intros [m1 ->] [m2 ->]. exists (m1 ++ m2). now rewrite app_assoc. Qed.

Lemma grown_length st st' :
  memory.grown st st' -> (List.length st <= List.length st')%nat.
Proof. intros [more ->]. rewrite length_app. lia. Qed.

Lemma cells_grown st st' a : memory.grown st st' ->
  (a < List.length st)%nat -> memory.cells st' a = memory.cells st a.
Proof. intros [more ->] Ha. unfold memory.cells. now apply app_nth1. Qed.

Lemma full_valid st s : memory.full st s -> memory.valid st s.
Proof. destruct s as [| a n]; [exact id |]. cbn. intros [Ha <-]. auto. Qed.

Lemma read_grown st st' s : memory.grown st st' -> memory.valid st s ->
  memory.read st' s = memory.read st s.
Proof.
  intros Hg Hv. destruct s as [| a n]; [reflexivity |]. cbn in *.
  now rewrite (cells_grown _ _ _ Hg (proj1 Hv)).
Qed.

Lemma row_grown st st' s : memory.grown st st' -> memory.valid st s ->
  memory.row st' s = memory.row st s.
Proof.
  intros Hg Hv. destruct s as [| a n]; [reflexivity |].
  unfold memory.row. now rewrite (read_grown _ _ _ Hg Hv).
Qed.

Lemma valid_grown st st' s : memory.grown st st' -> memory.valid st s ->
  memory.valid st' s.
Proof.
  intros Hg Hv. destruct s as [| a n]; [exact I |]. cbn in *.
  rewrite (cells_grown _ _ _ Hg (proj1 Hv)).
  pose proof (grown_length _ _ Hg). split; [lia | tauto].
Qed.

Lemma full_grown st st' s : memory.grown st st' -> memory.full st s ->
  memory.full st' s.
Proof.
  intros Hg Hv. destruct s as [| a n]; [exact I |]. cbn in *.
  rewrite (cells_grown _ _ _ Hg (proj1 Hv)).
  pose proof (grown_length _ _ Hg). split; [lia | tauto].
Qed.

Lemma rows_grown st st' rows : memory.grown st st' ->
  Forall (memory.valid st) rows ->
  map (memory.row st') rows = map (memory.row st) rows /\
  Forall (memory.valid st') rows.
Proof.
  intros Hg. induction 1 as [| s rows Hs _ [IH1 IH2]]; [split; constructor |].
  cbn [map]. rewrite IH1, (row_grown _ _ _ Hg Hs). split; [reflexivity |].
  constructor; [exact (valid_grown _ _ _ Hg Hs) | exact IH2].
Qed.

Lemma tidy_grown st st' i : memory.grown st st' -> memory.tidy st i ->
  memory.tidy st' i /\ memory.erase st' i = memory.erase st i.
Proof.
  intros Hg.
  induction i as [id pending close | li IHl ri IHr rightRows index leftRow];
    cbn [memory.tidy memory.erase].
  - intros Hp. split.
    + eapply Forall_impl; [| exact Hp].
      intros [err | s]; [trivial | apply full_grown; exact Hg].
    + f_equal. induction Hp as [| x pending Hx _ IH]; [reflexivity |].
      cbn [map]. rewrite IH. f_equal.
      destruct x as [err | s]; [reflexivity |]. cbn.
      now rewrite (row_grown _ _ _ Hg (full_valid _ _ Hx)).
  - intros (Ht & Hl & Hr & Hrows & Hleft).
    destruct (IHl Hl) as [Hl' ->]. destruct (IHr Hr) as [Hr' ->].
    destruct (rows_grown _ _ _ Hg Hrows) as [-> Hrows'].
    rewrite (row_grown _ _ _ Hg (full_valid _ _ Hleft)).
    repeat split; try assumption. now apply (full_grown st).
Qed.

Lemma values_row st s : values (memory.row st s) = memory.read st s.
Proof. destruct s; reflexivity. Qed.

Lemma is_nil_row st s : is_nil (memory.row st s) = memory.is_nil s.
Proof. destruct s; reflexivity. Qed.

Lemma cells_new st x : memory.cells (st ++ [x]) (List.length st) = x.
Proof. unfold memory.cells. now rewrite nth_middle. Qed.

(** Appending to a slice that fills its array allocates: nothing in the
    store is written, and the result reads as both. *)
Lemma append_full st l vs s' st' : memory.full st l ->
  memory.append st l vs = (s', st') ->
  memory.grown st st' /\ memory.valid st' s' /\
  memory.row st' s' = append (memory.row st l) vs.
Proof.
  intros Hl Happ. destruct vs as [| v vs].
  - injection Happ as <- <-.
    repeat split; [apply grown_refl | now apply full_valid].
  - assert (Hgrow : memory.grow st l (v :: vs) = (s', st')).
    { destruct l as [| a n]; [exact Happ |]. cbn in Hl, Happ.
      destruct Hl as [_ Hcap]. rewrite Hcap in Happ.
      destruct (Nat.leb_spec (n + S (List.length vs)) n) as [Hle | _];
        [lia | exact Happ]. }
    clear Happ. remember (v :: vs) as vs0 eqn:Evs.
    unfold memory.grow in Hgrow. injection Hgrow as <- <-.
    assert (Hread : List.length (memory.read st l) = memory.len l).
    { destruct l as [| a n]; [reflexivity |]. cbn in *.
      destruct Hl as [_ <-]. now rewrite firstn_all. }
    split; [eexists; reflexivity |]. split.
    + cbn [memory.valid]. rewrite cells_new, !length_app, Hread.
      split; [cbn [List.length]; lia | lia].
    + unfold memory.row at 1. unfold memory.read at 1. rewrite cells_new.
      rewrite app_assoc, firstn_app.
      rewrite length_app, Hread, Nat.sub_diag.
      rewrite firstn_all2 by (rewrite length_app, Hread; lia).
      cbn [firstn]. rewrite app_nil_r.
      subst vs0. destruct l; reflexivity.
Qed.

(** ** Right-deep iterators read as their values *)

Section simulation.

Variable mnext : memory.RowIterator -> memory.Store -> memory.step.
Variable vnext : RowIterator -> step.

Hypothesis next_matches : forall i st, memory.tidy st i ->
  memory.matches st i (mnext i st) (vnext (memory.erase st i)).

Lemma fillRows_matches : forall k ri acc st,
  memory.tidy st ri -> Forall (memory.valid st) acc ->
  match memory.fillRows mnext k ri acc st with
  | None =>
    fillRows vnext k (memory.erase st ri) (map (memory.row st) acc) = None
  | Some (out, ri', acc', st') =>
    memory.grown st st' /\ memory.tidy st' ri' /\
    Forall (memory.valid st') acc' /\
    fillRows vnext k (memory.erase st ri) (map (memory.row st) acc)
    = Some (out, memory.erase st' ri', map (memory.row st') acc')
  end.
Proof.
  induction k as [| k IH]; intros ri acc st Hri Hacc; [reflexivity |].
  cbn [memory.fillRows fillRows].
  pose proof (next_matches ri st Hri) as Hn. unfold memory.matches in Hn.
  destruct (mnext ri st) as [[[out ri'] st'] |]; [| now rewrite Hn].
  destruct Hn as (Hg & Ht & _ & Hout & ->).
  destruct (rows_grown _ _ _ Hg Hacc) as [Hmap Hacc'].
  destruct out as [rr | err | msg]; cbn [memory.erase_outcome].
  - destruct Hout as [Hrr _].
    assert (Hall : Forall (memory.valid st') (acc ++ [rr])).
    { apply Forall_app. split; [exact Hacc' | now constructor]. }
    specialize (IH ri' (acc ++ [rr]) st' Ht Hall).
    rewrite map_app, Hmap in IH. cbn [map] in IH.
    destruct (memory.fillRows mnext k ri' (acc ++ [rr]) st')
      as [[[[out ri''] acc''] st''] |]; [| exact IH].
    destruct IH as (Hg' & Ht' & Hacc'' & IH).
    repeat split; try assumption. eapply grown_trans; eassumption.
  - rewrite Hmap. repeat split; assumption.
  - rewrite Hmap. repeat split; assumption.
Qed.

Lemma Next_row_matches li ri rightRows index leftRow st :
  memory.tidy st (memory.crossJoinIterator li ri rightRows index leftRow) ->
  memory.matches st (memory.crossJoinIterator li ri rightRows index leftRow)
    (memory.Next_row mnext li ri rightRows index leftRow st)
    (Next_row vnext (memory.erase st li) (memory.erase st ri)
       (map (memory.row st) rightRows) index (memory.row st leftRow)).
Proof.
  intros Hi.
  assert (Hjoin : forall li' index' leftRow' st',
    memory.grown st st' -> memory.is_table li' -> memory.tidy st' li' ->
    memory.full st' leftRow' ->
    memory.matches st (memory.crossJoinIterator li ri rightRows index leftRow)
      (match nth_error rightRows index' with
       | None =>
         Some (Panic "index out of range",
               memory.crossJoinIterator li' ri rightRows index' leftRow', st')
       | Some rr =>
         let (row, st'') :=
           memory.append st' leftRow' (memory.read st' rr) in
         if (List.length rightRows <=? S index')%nat
         then Some (Ret row,
                    memory.crossJoinIterator li' ri rightRows 0
                      memory.SliceNil, st'')
         else Some (Ret row,
                    memory.crossJoinIterator li' ri rightRows (S index')
                      leftRow', st'')
       end)
      (match nth_error (map (memory.row st) rightRows) index' with
       | None =>
         Some (Panic "index out of range",
               crossJoinIterator (memory.erase st' li') (memory.erase st ri)
                 (map (memory.row st) rightRows) index'
                 (memory.row st' leftRow'))
       | Some rr =>
         if (List.length (map (memory.row st) rightRows) <=? S index')%nat
         then Some (Ret (append (memory.row st' leftRow') (values rr)),
                    crossJoinIterator (memory.erase st' li')
                      (memory.erase st ri)
                      (map (memory.row st) rightRows) 0 RowNil)
         else Some (Ret (append (memory.row st' leftRow') (values rr)),
                    crossJoinIterator (memory.erase st' li')
                      (memory.erase st ri)
                      (map (memory.row st) rightRows) (S index')
                      (memory.row st' leftRow'))
       end)).
  { intros li' index' leftRow' st' Hg Htab Hli' Hleft'.
    destruct Hi as (_ & _ & Hri & Hrows & _).
    destruct (tidy_grown _ _ _ Hg Hri) as [Hri' Eri].
    destruct (rows_grown _ _ _ Hg Hrows) as [Erows Hrows'].
    rewrite nth_error_map, length_map.
    destruct (nth_error rightRows index') as [rr |] eqn:Hnth; cbn [option_map].
    - assert (Hrr : memory.valid st rr).
      { eapply Forall_forall; [exact Hrows |].
        eapply nth_error_In; exact Hnth. }
      rewrite values_row, <- (read_grown _ _ _ Hg Hrr).
      destruct (memory.append st' leftRow' (memory.read st' rr))
        as [row st''] eqn:Happ.
      destruct (append_full _ _ _ _ _ Hleft' Happ) as (Hg' & Hrow & <-).
      destruct (tidy_grown _ _ _ Hg' Hri') as [Hri'' Eri'].
      destruct (tidy_grown _ _ _ Hg' Hli') as [Hli'' Eli'].
      destruct (rows_grown _ _ _ Hg' Hrows') as [Erows' Hrows''].
      pose proof (grown_trans _ _ _ Hg Hg') as Hgg.
      destruct (List.length rightRows <=? S index')%nat; cbn.
      + repeat split; try assumption; try (intros []).
        now rewrite Eli', Eri', Eri, Erows', Erows.
      + repeat split; try assumption; try (intros []).
        * now apply (full_grown st').
        * rewrite Eli', Eri', Eri, Erows', Erows.
          now rewrite (row_grown _ _ _ Hg' (full_valid _ _ Hleft')).
    - cbn. repeat split; try assumption; try (intros []).
      now rewrite Eri, Erows. }
  unfold memory.Next_row, Next_row. rewrite is_nil_row.
  destruct Hi as (Htab & Hli & Hri & Hrows & Hleft).
  destruct (memory.is_nil leftRow) eqn:Hnil.
  - pose proof (next_matches li st Hli) as Hn. unfold memory.matches in Hn.
    destruct (mnext li st) as [[[out li'] st'] |]; [| now rewrite Hn].
    destruct Hn as (Hg & Hli' & Htab' & Hout & ->).
    destruct (tidy_grown _ _ _ Hg Hri) as [Hri' Eri].
    destruct (rows_grown _ _ _ Hg Hrows) as [Erows Hrows'].
    destruct out as [lr | err | msg]; cbn [memory.erase_outcome].
    + apply Hjoin; try tauto.
    + cbn. repeat split; try tauto; try (intros []).
      * now apply (full_grown st).
      * rewrite Eri, Erows.
        now rewrite (row_grown _ _ _ Hg (full_valid _ _ Hleft)).
    + cbn. repeat split; try tauto; try (intros []).
      * now apply (full_grown st).
      * rewrite Eri, Erows.
        now rewrite (row_grown _ _ _ Hg (full_valid _ _ Hleft)).
  - apply Hjoin; try assumption. apply grown_refl.
Qed.

Lemma crossJoinIterator_Next_matches fuel li ri rightRows index leftRow st :
  memory.tidy st (memory.crossJoinIterator li ri rightRows index leftRow) ->
  memory.matches st (memory.crossJoinIterator li ri rightRows index leftRow)
    (memory.crossJoinIterator_Next mnext fuel li ri rightRows index leftRow st)
    (crossJoinIterator_Next vnext fuel (memory.erase st li)
       (memory.erase st ri) (map (memory.row st) rightRows) index
       (memory.row st leftRow)).
Proof.
  intros Hi. unfold memory.crossJoinIterator_Next, crossJoinIterator_Next.
  destruct rightRows as [| r0 rs]; [| now apply Next_row_matches].
  cbn [map].
  destruct Hi as (Htab & Hli & Hri & Hrows & Hleft).
  pose proof (fillRows_matches fuel ri [] st Hri Hrows) as Hfill.
  cbn [map] in Hfill.
  destruct (memory.fillRows mnext fuel ri [] st)
    as [[[[out ri'] rows'] st'] |]; [| now rewrite Hfill].
  destruct Hfill as (Hg & Hri' & Hrows' & ->).
  destruct (tidy_grown _ _ _ Hg Hli) as [Hli' Eli].
  pose proof (full_grown _ _ _ Hg Hleft) as Hleft'.
  pose proof (row_grown _ _ _ Hg (full_valid _ _ Hleft)) as Eleft.
  assert (Hi' : memory.tidy st'
            (memory.crossJoinIterator li ri' rows' index leftRow)).
  { repeat split; assumption. }
  assert (Hstay : forall out' : outcome memory.Slice,
    match out' with Ret _ => False | _ => True end ->
    memory.matches st (memory.crossJoinIterator li ri [] index leftRow)
      (Some (out', memory.crossJoinIterator li ri' rows' index leftRow, st'))
      (Some (memory.erase_outcome st' out',
             crossJoinIterator (memory.erase st li) (memory.erase st' ri')
               (map (memory.row st') rows') index (memory.row st leftRow)))).
  { intros out' Hout'. cbn. repeat split; try assumption; try (intros []).
    - destruct out'; [contradiction | exact I | exact I].
    - now rewrite Eli, Eleft. }
  destruct out as [[] | err | msg]; [| exact (Hstay (Panic msg) I)].
  destruct (is_EOF err) eqn:Heof; [| exact (Hstay (Err err) I)].
  destruct rows' as [| r0 rs].
  - exact (Hstay (Err io_EOF) I).
  - pose proof (Next_row_matches li ri' (r0 :: rs) index leftRow st' Hi')
      as Hrow.
    rewrite Eli, Eleft in Hrow. unfold memory.matches in *.
    destruct (memory.Next_row mnext li ri' (r0 :: rs) index leftRow st')
      as [[[out i'] st''] |]; [| exact Hrow].
    destruct Hrow as (Hg' & Ht' & Htab' & Hout & ->).
    repeat split; try assumption; try (intros []).
    eapply grown_trans; eassumption.
Qed.

End simulation.

(** A call of [Next] on a right-deep iterator allocates and writes
    nothing, and reads as the call of [Next] of package plan. *)
Lemma Next_matches fuel : forall i st, memory.tidy st i ->
  memory.matches st i (memory.Next fuel i st) (Next fuel (memory.erase st i)).
Proof.
  induction fuel as [| fuel IH]; intros i st Hi; [reflexivity |].
  destruct i as [id pending close | li ri rightRows index leftRow].
  - cbn [memory.Next memory.erase Next]. cbn [memory.tidy] in Hi.
    destruct pending as [| [err | s] pending]; cbn [map memory.read_pending].
    + cbn. repeat split; try assumption; try apply grown_refl; auto.
    + inversion Hi; subst. cbn.
      repeat split; try assumption; try apply grown_refl; auto.
    + inversion Hi; subst. cbn.
      repeat split; try assumption; try apply grown_refl; auto.
      now apply full_valid.
  - cbn [memory.Next memory.erase Next].
    now apply crossJoinIterator_Next_matches.
Qed.

(** Draining a right-deep iterator: the rows read as those of package
    plan, and every row still reads at the end as when it was
    returned. *)
Lemma drain_matches fuel : forall i st, memory.tidy st i ->
  match memory.drain fuel i st with
  | None => drain fuel (memory.erase st i) = None
  | Some (rows, err, st') =>
    memory.grown st st' /\
    drain fuel (memory.erase st i)
    = Some (map (fun x => memory.row st' (fst x)) rows, err) /\
    Forall (fun x => memory.valid st' (fst x) /\
                     snd x = memory.read st' (fst x)) rows
  end.
Proof.
  induction fuel as [| fuel IH]; intros i st Hi; [reflexivity |].
  cbn [memory.drain drain].
  pose proof (Next_matches fuel i st Hi) as Hn. unfold memory.matches in Hn.
  destruct (memory.Next fuel i st) as [[[out i'] st'] |]; [| now rewrite Hn].
  destruct Hn as (Hg & Hi' & _ & Hout & ->).
  destruct out as [s | err | msg]; cbn [memory.erase_outcome].
  - destruct Hout as [Hs _]. specialize (IH i' st' Hi').
    destruct (memory.drain fuel i' st') as [[[rows err] st''] |];
      [| now rewrite IH].
    destruct IH as (Hg' & -> & Hrows).
    split; [eapply grown_trans; eassumption |]. split.
    + cbn [map fst]. now rewrite (row_grown _ _ _ Hg' Hs).
    + constructor; [| exact Hrows]. cbn [fst snd].
      split; [now apply (valid_grown st') |].
      now rewrite (read_grown _ _ _ Hg' Hs).
  - repeat split; [exact Hg | constructor].
  - reflexivity.
Qed.

Lemma load_full rows : forall st pending st',
  memory.load rows st = (pending, st') ->
  memory.grown st st' /\
  Forall (fun x => match x with inl _ => True | inr s => memory.full st' s end)
         pending /\
  map (memory.read_pending st') pending = rows.
Proof.
  induction rows as [| [err | [| vs]] rows IH]; intros st pending st' Hload;
    cbn [memory.load] in Hload.
  - injection Hload as <- <-. repeat split; [apply grown_refl | constructor].
  - destruct (memory.load rows st) as [pending0 st0] eqn:E.
    injection Hload as <- <-. destruct (IH _ _ _ E) as (Hg & Hall & Hmap).
    repeat split; [exact Hg | now constructor | cbn; now rewrite Hmap].
  - destruct (memory.load rows st) as [pending0 st0] eqn:E.
    injection Hload as <- <-. destruct (IH _ _ _ E) as (Hg & Hall & Hmap).
    repeat split; [exact Hg | now constructor | cbn; now rewrite Hmap].
  - destruct (memory.load rows (st ++ [vs])) as [pending0 st0] eqn:E.
    injection Hload as <- <-. destruct (IH _ _ _ E) as (Hg & Hall & Hmap).
    assert (Hnew : memory.full (st ++ [vs])
                     (memory.SliceOf (List.length st) (List.length vs))).
    { cbn. rewrite cells_new, length_app. cbn. split; [lia | reflexivity]. }
    split; [eapply grown_trans; [eexists; reflexivity | exact Hg] |].
    split; [constructor; [now apply (full_grown (st ++ [vs])) | exact Hall] |].
    cbn [map memory.read_pending]. rewrite Hmap. do 2 f_equal.
    rewrite (row_grown _ _ _ Hg (full_valid _ _ Hnew)).
    unfold memory.row, memory.read. rewrite cells_new. now rewrite firstn_all.
Qed.

(** [RowIter] on a right-deep plan: the iterator is right-deep and reads
    as the one of package plan. *)
Lemma RowIter_matches p : memory.right_deep p -> forall w st,
  match memory.RowIter p w st with
  | (inl err, w', st') => memory.grown st st' /\ RowIter p w = (inl err, w')
  | (inr i, w', st') =>
    memory.grown st st' /\ memory.tidy st' i /\
    (match p with NTable _ => memory.is_table i | _ => True end) /\
    RowIter p w = (inr (memory.erase st' i), w')
  end.
Proof.
  induction p as [t | Left IHl Right IHr]; intros Hp w st.
  - cbn [memory.RowIter RowIter].
    destruct (table_RowIter t) as [err |];
      [split; [apply grown_refl | reflexivity] |].
    unfold fresh.
    destruct (memory.load (table_Next t) st) as [pending st'] eqn:E.
    destruct (load_full _ _ _ _ E) as (Hg & Hall & Hmap).
    cbn [memory.tidy memory.erase memory.is_table]. now rewrite Hmap.
  - destruct Left as [t |]; [| contradiction]. cbn [memory.right_deep] in Hp.
    specialize (IHl I w st). specialize (IHr Hp).
    cbn [memory.RowIter RowIter] in *.
    destruct (table_RowIter t) as [err |];
      [split; [apply grown_refl | reflexivity] |].
    unfold fresh in *.
    destruct (memory.load (table_Next t) st) as [pending st1].
    destruct IHl as (Hg & Hli & Htab & El). injection El as El.
    specialize (IHr (mkWorld (S (next_id w)) (events w ++ [Opened (next_id w)]))
                    st1).
    destruct (memory.RowIter Right _ st1) as [[[err | ri] w2] st2].
    + destruct IHr as [Hg' ->].
      split; [eapply grown_trans; eassumption | reflexivity].
    + destruct IHr as (Hg' & Hri & _ & ->).
      destruct (tidy_grown _ _ _ Hg' Hli) as [Hli' Eli].
      split; [eapply grown_trans; eassumption |].
      cbn [memory.tidy memory.erase memory.row].
      repeat split; try assumption; try constructor.
      cbn [memory.erase] in Eli. rewrite Eli, El. reflexivity.
Qed.

Lemma values_cross Ls Rs :
  map values (cross Ls Rs)
  = flat_map (fun l => map (fun r => l ++ r) (map values Rs)) Ls.
Proof.
  induction Ls as [| l Ls IH]; [reflexivity |].
  rewrite cross_cons, map_app, IH. cbn [flat_map]. f_equal.
  now rewrite !map_map.
Qed.

(** ** A join below a join

    The rows a join returns for one left row are cut from one array
    when that row has capacity to spare, as the rows of a join have. *)

(** C1.  The tables [d], [a], [b] and [c] hold the rows [[0]]; [[1, 2]];
    [[3]]; and [[7]], [[8]].  The left child [d] yields [[0]] and the
    right child, the join of [a], [b] and [c], yields [[1, 2, 3, 7]] and
    [[1, 2, 3, 8]], each row read when it is returned.  The iterator of
    [CrossJoin(d, CrossJoin(CrossJoin(a, b), c))] returns two rows that
    both read [[0, 1, 2, 3, 8]], and then [io.EOF]: the rows of the
    right child share the array of [[1, 2, 3]], which has room for a
    fourth value, and the second overwrites the first in the buffer of
    the outer join. *)
Theorem CrossJoin_nested_rows_overwritten :
  let d := table "d" [row1 0] in
  let a := table "a" [RowOf [VInt64 1; VInt64 2]] in
  let b := table "b" [row1 3] in
  let c := table "c" [row1 7; row1 8] in
  exists li ri w st,
    memory.RowIter (CrossJoin d (CrossJoin (CrossJoin a b) c)) empty_World []
    = (inr (memory.crossJoinIterator li ri [] 0 memory.SliceNil), w, st) /\
    (forall fuel, (10 <= fuel)%nat -> exists rows st',
       memory.drain fuel li st = Some (rows, io_EOF, st') /\
       map snd rows = [[VInt64 0]]) /\
    (forall fuel, (10 <= fuel)%nat -> exists rows st',
       memory.drain fuel ri st = Some (rows, io_EOF, st') /\
       map snd rows = [[VInt64 1; VInt64 2; VInt64 3; VInt64 7];
                       [VInt64 1; VInt64 2; VInt64 3; VInt64 8]]) /\
    (forall fuel, (10 <= fuel)%nat -> exists rows st',
       memory.drain fuel
         (memory.crossJoinIterator li ri [] 0 memory.SliceNil) st
       = Some (rows, io_EOF, st') /\
       map snd rows = [[VInt64 0; VInt64 1; VInt64 2; VInt64 3; VInt64 8];
                       [VInt64 0; VInt64 1; VInt64 2; VInt64 3; VInt64 8]]).
Proof.
  cbv zeta. do 4 eexists. split; [vm_compute; reflexivity |].
  repeat split; intros fuel Hfuel; do 2 eexists;
    (split; [eapply drain_mem_mono; [exact Hfuel | vm_compute; reflexivity]
            | reflexivity]).
Qed.

(** A join as left child: every row reads right when it is returned, but
    the rows for one left row share its array, and each is overwritten
    by the next. *)
Example CrossJoin_left_deep_rows_overwritten :
  match memory.RowIter
          (CrossJoin (CrossJoin (table "a" [RowOf [VInt64 1; VInt64 2]])
                        (table "b" [row1 3]))
             (table "c" [row1 7; row1 8])) empty_World [] with
  | (inr i, _, st) =>
    match memory.drain 10 i st with
    | Some (rows, err, st') =>
      map snd rows = [[VInt64 1; VInt64 2; VInt64 3; VInt64 7];
                      [VInt64 1; VInt64 2; VInt64 3; VInt64 8]] /\
      map (fun x => memory.read st' (fst x)) rows
      = [[VInt64 1; VInt64 2; VInt64 3; VInt64 8];
         [VInt64 1; VInt64 2; VInt64 3; VInt64 8]] /\
      err = io_EOF
    | None => False
    end
  | _ => False
  end.
Proof. vm_compute. repeat split. Qed.

(** ** Where the values tell everything *)





End memory_facts.

(** * Further properties of package expression *)

Module expression_more.

Import expression examples expression_facts.

(** ** isBinary *)

(** X1.  [isBinary] looks at the first 8000 bytes only: two byte
    sequences that agree there get the same answer. *)
Theorem isBinary_window_only (d1 d2 : list byte) :
  firstn sniffLen d1 = firstn sniffLen d2 -> isBinary d1 = isBinary d2.
Proof. intros H. now rewrite !isBinary_firstn, H. Qed.

Lemma isBinary_window_only_witness :
  isBinary (repeat x61 sniffLen ++ [x00; x62])
  = isBinary (repeat x61 sniffLen ++ [x63]).
Proof.
  apply (isBinary_window_only (repeat x61 sniffLen ++ [x00; x62])
           (repeat x61 sniffLen ++ [x63])).
  vm_compute. reflexivity.
Defined.

(** X2.  Data found binary stays binary when more bytes follow, and
    once 8000 bytes are there what follows changes nothing. *)
Theorem isBinary_append (a b : list byte) :
  (isBinary a = true -> isBinary (a ++ b) = true) /\
  (8000 <= Z.of_nat (List.length a) -> isBinary (a ++ b) = isBinary a).
Proof.
  split.
  - intros Ha. apply isBinary_window in Ha. destruct Ha as (i & Hi & Hn).
    apply isBinary_window. exists i. split; [exact Hi |].
    rewrite nth_error_app1; [exact Hn |]. apply nth_error_Some. congruence.
  - intros Hlen. rewrite !isBinary_firstn. f_equal. f_equal. f_equal.
    rewrite firstn_app.
    replace (sniffLen - List.length a)%nat with 0%nat
      by (unfold sniffLen; lia).
    cbn [firstn]. now rewrite app_nil_r.
Qed.

Lemma isBinary_append_witness :
  isBinary ([x61; x00] ++ [x62]) = true /\
  isBinary (repeat x61 sniffLen ++ [x00]) = isBinary (repeat x61 sniffLen).
Proof.
  split.
  - apply (proj1 (isBinary_append [x61; x00] [x62])). reflexivity.
  - apply (proj2 (isBinary_append (repeat x61 sniffLen) [x00])).
    rewrite repeat_length. unfold sniffLen. lia.
Defined.

(** ** What the evaluations return *)

(** X3.  [IsBinary.Eval] evaluates its child once and nothing else: its
    log is the log of the child.  A value it returns is a boolean,
    never nil; an error it returns is the error of the child or the one
    of the Blob conversion of the child's value. *)
Theorem IsBinary_Eval_outcomes `{TypeSystem} (Child : Expression) (row : Row) :
  fst (Eval (IsBinary Child) row) = fst (Eval Child row) /\
  (forall t v, Eval (IsBinary Child) row = (t, Ret v) ->
     exists b, v = VBool b) /\
  (forall t e, Eval (IsBinary Child) row = (t, Err e) ->
     snd (Eval Child row) = Err e \/
     exists v, snd (Eval Child row) = Ret v /\ Blob_Convert v = inl e).
Proof.
  cbn [Eval]. destruct (Eval Child row) as [t1 [v | e1 | m]]; cbn.
  - destruct v; cbn; try destruct (Blob_Convert _) as [e2 | blob] eqn:C; cbn;
      rewrite ?app_nil_r; (split; [reflexivity | split]);
      intros t0 x Hx; inversion Hx; subst; eauto.
  - split; [reflexivity | split]; intros t0 x Hx; inversion Hx; auto.
  - split; [reflexivity | split]; intros t0 x Hx; inversion Hx.
Qed.

(** X4.  [Year.Eval] evaluates its child once and nothing else.  A value
    it returns is nil, exactly when the child's value is nil, or an
    [int32] within the 32-bit range. *)
Theorem Year_Eval_outcomes `{TypeSystem} (Child : Expression) (row : Row) :
  fst (Eval (Year Child) row) = fst (Eval Child row) /\
  (forall t v, Eval (Year Child) row = (t, Ret v) ->
     (v = VNil /\ snd (Eval Child row) = Ret VNil) \/
     (exists z, v = VInt32 z /\ is_int32 z /\
                snd (Eval Child row) <> Ret VNil)).
Proof.
  cbn [Eval]. destruct (Eval Child row) as [t1 [v | e1 | m]]; cbn.
  - destruct v; cbn; try destruct (Date_Convert _) as [e2 | date] eqn:C; cbn;
      rewrite ?app_nil_r; (split; [reflexivity |]);
      intros t0 x Hx; inversion Hx; subst; auto;
      right; eexists; (split; [reflexivity | split;
        [apply int32_range | discriminate]]).
  - split; [reflexivity |]. intros t0 x Hx. inversion Hx.
  - split; [reflexivity |]. intros t0 x Hx. inversion Hx.
Qed.

Lemma bind_Ret_inv {A B} (m : ev A) (k : A -> ev B) t b :
  bind m k = (t, Ret b) ->
  exists t1 a t2, m = (t1, Ret a) /\ k a = (t2, Ret b) /\ t = t1 ++ t2.
Proof.
  destruct m as [t1 [a | e1 | m1]]; cbn; try discriminate.
  destruct (k a) as [t2 r] eqn:E. intros HE. injection HE as <- ->.
  eauto 6.
Qed.

Lemma Substring_cut_text text start length v :
  Substring_cut text start length = Ret v -> exists s, v = VText s.
Proof.
  unfold Substring_cut, slice.
  repeat match goal with
         | |- context [if ?b then _ else _] => destruct b
         end; intros HE; inversion HE; eauto.
Qed.

(** X5.  A value [Substring.Eval] returns is nil, exactly when the value
    of [str] is nil, or a text. *)
Theorem Substring_Eval_outcomes `{TypeSystem} (str start : Expression)
  (len : option Expression) (row : Row) (t : list string) (v : Value) :
  Eval (Substring str start len) row = (t, Ret v) ->
  (v = VNil /\ snd (Eval str row) = Ret VNil) \/
  (exists s, v = VText s /\ snd (Eval str row) <> Ret VNil).
Proof.
  intros HE. cbn [Eval] in HE.
  apply bind_Ret_inv in HE as (t1 & v1 & t2 & E1 & HE & _). rewrite E1.
  destruct v1; cbn in HE; try discriminate;
    try (injection HE as _ <-; left; split; reflexivity);
    (apply bind_Ret_inv in HE as (t3 & v2 & t4 & _ & HE & _);
     apply bind_Ret_inv in HE as (t5 & st & t6 & _ & HE & _);
     apply bind_Ret_inv in HE as (t7 & n & t8 & _ & HE & _);
     unfold lift_outcome in HE; injection HE as _ HE;
     apply Substring_cut_text in HE as [s0 ->];
     right; exists s0; split; [reflexivity | discriminate]).
Qed.

Lemma Substring_Eval_outcomes_witness :
  (VText "bcd" = VNil /\ snd (Eval abcde RowNil) = Ret VNil) \/
  (exists s, VText "bcd" = VText s /\ snd (Eval abcde RowNil) <> Ret VNil).
Proof.
  apply (Substring_Eval_outcomes abcde (int "start" 2)
           (Some (int "len" 3)) RowNil ["str"; "start"; "len"]
           (VText "bcd")).
  vm_compute. reflexivity.
Defined.

(** ** Substring within the range of int64 *)

(** X6.  [Substring.Eval] with three arguments, on a text of [count]
    runes: a start index outside [0, count) or a length that is not
    positive gives the empty text; otherwise, as long as start index
    plus length stays within [int64], the result is the text of the
    runes from the start index on, [length] of them or as many as are
    left.  The log is the one of the three children, in order. *)
Theorem Substring_Eval_in_range `{TypeSystem} (str start ln : Expression)
  (row : Row) (t1 t2 t3 : list string) (s : string) (v2 v3 : Value)
  (st n : Z) :
  Eval str row = (t1, Ret (VText s)) ->
  Eval start row = (t2, Ret v2) -> Int64_Convert v2 = inr st ->
  Eval ln row = (t3, Ret v3) -> Int64_Convert v3 = inr n ->
  is_int64 st -> is_int64 n ->
  Z.of_nat (List.length (runes_of_string s)) <= MaxInt64 ->
  let text := runes_of_string s in
  let count := Z.of_nat (List.length text) in
  let startIdx := if st <? 0 then count + st else st - 1 in
  (0 <= startIdx < count -> 0 < n -> startIdx + n <= MaxInt64) ->
  Eval (Substring str start (Some ln)) row
  = (t1 ++ t2 ++ t3,
     Ret (VText
            (if (startIdx <? 0) || (count <=? startIdx) || (n <=? 0)
             then ""
             else string_of_runes
                    (firstn (Z.to_nat (Z.min n (count - startIdx)))
                            (skipn (Z.to_nat startIdx) text))))).
Proof.
  intros H1 H2 C2 H3 C3 Hst Hn Hcount text count startIdx Hsum.
  rewrite (Substring_Eval_3 _ _ _ _ _ _ _ _ _ _ _ _ H1 H2 C2 H3 C3).
  f_equal.
  destruct (Substring_cut_spec (runes_of_string s) st n Hst Hn Hcount)
    as (Hout & Hin & _).
  fold text count startIdx in Hout, Hin. fold text.
  destruct (startIdx <? 0) eqn:E1;
    [apply Hout; apply Z.ltb_lt in E1; lia | apply Z.ltb_ge in E1].
  destruct (count <=? startIdx) eqn:E2;
    [apply Hout; apply Z.leb_le in E2; lia | apply Z.leb_gt in E2].
  destruct (n <=? 0) eqn:E3;
    [apply Hout; apply Z.leb_le in E3; lia | apply Z.leb_gt in E3].
  cbn [orb]. apply Hin; lia.
Qed.

Lemma Substring_Eval_in_range_witness :
  Eval (Substring abcde (int "start" (-3)) (Some (int "len" 100))) RowNil
  = (["str"; "start"; "len"], Ret (VText "cde")).
Proof.
  refine (Substring_Eval_in_range abcde (int "start" (-3)) (int "len" 100)
            RowNil ["str"] ["start"] ["len"] "abcde"
            (VInt64 (-3)) (VInt64 100) (-3) 100
            eq_refl eq_refl eq_refl eq_refl eq_refl _ _ _ _);
    unfold is_int64, MinInt64, MaxInt64; cbn; lia.
Defined.

(** X7.  [Substring.Eval] with two arguments never panics on a text
    whose rune count doubled fits [int64]: it returns the runes from the
    start index to the end, or the empty text when the start index is
    outside [0, count). *)
Theorem Substring_Eval_tail `{TypeSystem} (str start : Expression)
  (row : Row) (t1 t2 : list string) (s : string) (v2 : Value) (st : Z) :
  Eval str row = (t1, Ret (VText s)) ->
  Eval start row = (t2, Ret v2) -> Int64_Convert v2 = inr st ->
  is_int64 st ->
  2 * Z.of_nat (List.length (runes_of_string s)) <= MaxInt64 ->
  let text := runes_of_string s in
  let count := Z.of_nat (List.length text) in
  let startIdx := if st <? 0 then count + st else st - 1 in
  Eval (Substring str start None) row
  = (t1 ++ t2,
     Ret (VText (if (startIdx <? 0) || (count <=? startIdx) then ""
                 else string_of_runes (skipn (Z.to_nat startIdx) text)))).
Proof.
  intros H1 H2 C2 Hst Hcount text count startIdx.
  rewrite (Substring_Eval_2 _ _ _ _ _ _ _ _ H1 H2 C2). f_equal.
  assert (Hc : is_int64 count)
    by (unfold is_int64, MinInt64, MaxInt64, count, text in *; lia).
  destruct (Substring_cut_spec (runes_of_string s) st count Hst Hc
              ltac:(unfold MaxInt64 in *; lia)) as (Hout & Hin & _).
  fold text count startIdx in Hout, Hin. fold text count.
  destruct (startIdx <? 0) eqn:E1;
    [apply Hout; apply Z.ltb_lt in E1; lia | apply Z.ltb_ge in E1].
  destruct (count <=? startIdx) eqn:E2;
    [apply Hout; apply Z.leb_le in E2; lia | apply Z.leb_gt in E2].
  cbn [orb]. rewrite Hin by (unfold MaxInt64, count, text in *; lia).
  rewrite Z.min_r by lia.
  rewrite firstn_all2; [reflexivity |].
  rewrite length_skipn. unfold count, text. lia.
Qed.

Lemma Substring_Eval_tail_witness :
  Eval (Substring abcde (int "start" 4) None) RowNil
  = (["str"; "start"], Ret (VText "de")).
Proof.
  refine (Substring_Eval_tail abcde (int "start" 4) RowNil
            ["str"] ["start"] "abcde" (VInt64 4) 4
            eq_refl eq_refl eq_refl _ _);
    unfold is_int64, MinInt64, MaxInt64; cbn; lia.
Defined.

(** ** Substring on ASCII text *)

Lemma decode_ascii bs :
  Forall (fun b => 0 <= b < 128) bs -> decode bs = bs.
Proof.
  induction 1 as [| b bs Hb _ IH]; [reflexivity |]. cbn [decode].
  replace (b <? 128) with true by (symmetry; apply Z.ltb_lt; lia).
  now rewrite IH.
Qed.

Lemma encode_ascii cs :
  Forall (fun c => (N_of_ascii c < 128)%N) cs ->
  string_of_runes (map (fun c => Z.of_N (N_of_ascii c)) cs)
  = string_of_list_ascii cs.
Proof.
  unfold string_of_runes, string_of_bytes.
  induction 1 as [| c cs Hc _ IH]; [reflexivity |].
  cbn [map flat_map]. unfold encode_rune at 1.
  replace (Z.of_N (N_of_ascii c) <? 0) with false
    by (symmetry; apply Z.ltb_ge; lia).
  replace (Z.of_N (N_of_ascii c) <? 128) with true
    by (symmetry; apply Z.ltb_lt; lia).
  cbn [app map string_of_list_ascii].
  now rewrite IH, N2Z.id, ascii_N_embedding.
Qed.

Lemma runes_ascii s :
  Forall (fun c => (N_of_ascii c < 128)%N) (list_ascii_of_string s) ->
  runes_of_string s
  = map (fun c => Z.of_N (N_of_ascii c)) (list_ascii_of_string s).
Proof.
  intros Hs. unfold runes_of_string, bytes_of_string. apply decode_ascii.
  apply Forall_map. eapply Forall_impl; [| exact Hs]. cbn. intros c Hc. lia.
Qed.

Lemma length_list_ascii_of_string s :
  List.length (list_ascii_of_string s) = String.length s.
Proof. induction s as [| c s IH]; cbn; congruence. Qed.

Lemma substring_firstn_skipn s : forall j k,
  substring j k s
  = string_of_list_ascii (firstn k (skipn j (list_ascii_of_string s))).
Proof.
  induction s as [| c s IH]; intros [| j] [| k]; cbn; try reflexivity.
  - now rewrite IH.
  - apply IH.
  - apply IH.
Qed.

Lemma Forall_range {A} (P : A -> Prop) l j k :
  Forall P l -> Forall P (firstn k (skipn j l)).
Proof.
  intros Hl. rewrite <- (firstn_skipn j l) in Hl.
  apply Forall_app in Hl as [_ Hl].
  rewrite <- (firstn_skipn k (skipn j l)) in Hl.
  now apply Forall_app in Hl as [Hl _].
Qed.

(** X8.  On ASCII text the runes are the bytes: within the range of
    [int64], what the end of [Substring.Eval] returns is the substring
    of the text that starts at the start index and has [length]
    characters, or as many as are left. *)
Theorem Substring_cut_ascii (s : string) (st n : Z) :
  Forall (fun c => (N_of_ascii c < 128)%N) (list_ascii_of_string s) ->
  is_int64 st -> is_int64 n ->
  Z.of_nat (String.length s) <= MaxInt64 ->
  let count := Z.of_nat (String.length s) in
  let startIdx := if st <? 0 then count + st else st - 1 in
  0 <= startIdx < count -> 0 < n -> startIdx + n <= MaxInt64 ->
  Substring_cut (runes_of_string s) st n
  = Ret (VText (substring (Z.to_nat startIdx)
                  (Z.to_nat (Z.min n (count - startIdx))) s)).
Proof.
  intros Hs Hst Hn Hlen count startIdx Hidx Hpos Hsum.
  assert (Hcount : Z.of_nat (List.length (runes_of_string s)) = count).
  { rewrite (runes_ascii s Hs), length_map, length_list_ascii_of_string.
    reflexivity. }
  destruct (Substring_cut_spec (runes_of_string s) st n Hst Hn
              ltac:(rewrite Hcount; exact Hlen)) as (_ & Hin & _).
  rewrite Hcount in Hin. fold startIdx in Hin.
  rewrite (Hin Hidx Hpos Hsum), (runes_ascii s Hs).
  rewrite skipn_map, firstn_map, encode_ascii, substring_firstn_skipn;
    [reflexivity |].
  now apply Forall_range.
Qed.

Lemma Substring_cut_ascii_witness :
  Substring_cut (runes_of_string "hello, world") 8 3 = Ret (VText "wor").
Proof.
  refine (Substring_cut_ascii "hello, world" 8 3 _ _ _ _ _ _ _);
    try (repeat constructor; fail);
    unfold is_int64, MinInt64, MaxInt64; cbn; lia.
Defined.

(** ** The order of evaluation in Substring *)

(** X9.  [Substring.Eval] stops at the first failure, whatever the
    later children are: a value of [str] that is neither nil, text nor
    bytes gives [ErrInvalidType] with the name of its type before
    [start] is evaluated; for a [str] that is text or bytes, an error of
    [start], or of its conversion to [int64], is returned before [len]
    is evaluated. *)
Theorem Substring_Eval_stops_early `{TypeSystem} (str start : Expression)
  (len : option Expression) (row : Row) (t1 : list string) (v1 : Value) :
  Eval str row = (t1, Ret v1) ->
  (match v1 with VNil | VText _ | VBlob _ => False | _ => True end ->
   Eval (Substring str start len) row
   = (t1, Err (ErrInvalidType (TypeOf v1)))) /\
  (forall t2 e,
     match v1 with VText _ | VBlob _ => True | _ => False end ->
     Eval start row = (t2, Err e) ->
     Eval (Substring str start len) row = (t1 ++ t2, Err e)) /\
  (forall t2 v2 e,
     match v1 with VText _ | VBlob _ => True | _ => False end ->
     Eval start row = (t2, Ret v2) ->
     Int64_Convert v2 = inl e ->
     Eval (Substring str start len) row = (t1 ++ t2, Err e)).
Proof.
  intros H1. split; [| split].
  - intros Hv. cbn [Eval]. rewrite H1.
    destruct v1; try contradiction; cbn; now rewrite app_nil_r.
  - intros t2 e Hv H2. cbn [Eval]. rewrite H1.
    destruct v1; try contradiction; cbn; rewrite H2; reflexivity.
  - intros t2 v2 e Hv H2 C2. cbn [Eval]. rewrite H1.
    destruct v1; try contradiction; cbn; rewrite H2; cbn; rewrite C2; cbn;
      now rewrite app_nil_r.
Qed.

Lemma Substring_Eval_stops_early_witness :
  Eval (Substring (Literal "str" (VInt64 7))
          (Failing "start" (ErrExternal "boom")) None) RowNil
  = (["str"], Err (ErrInvalidType "int64")) /\
  Eval (Substring abcde (Failing "start" (ErrExternal "boom"))
          (Some (Failing "len" (ErrExternal "bang")))) RowNil
  = (["str"; "start"], Err (ErrExternal "boom")) /\
  Eval (Substring (Literal "str" (VBlob [x61; x62; x63]))
          (Failing "start" (ErrExternal "boom"))
          (Some (Failing "len" (ErrExternal "bang")))) RowNil
  = (["str"; "start"], Err (ErrExternal "boom")) /\
  Eval (Substring (Literal "str" (VBlob [x61; x62; x63]))
          (Literal "start" (VText "one"))
          (Some (Failing "len" (ErrExternal "bang")))) RowNil
  = (["str"; "start"], Err (ErrExternal "not an integer")).
Proof.
  split; [| split; [| split]].
  - apply (proj1 (Substring_Eval_stops_early (Literal "str" (VInt64 7))
                    (Failing "start" (ErrExternal "boom")) None RowNil
                    ["str"] (VInt64 7) eq_refl)).
    exact I.
  - apply (proj1 (proj2 (Substring_Eval_stops_early abcde
                           (Failing "start" (ErrExternal "boom"))
                           (Some (Failing "len" (ErrExternal "bang")))
                           RowNil ["str"] (VText "abcde") eq_refl))
             ["start"] (ErrExternal "boom") I eq_refl).
  - apply (proj1 (proj2 (Substring_Eval_stops_early
                           (Literal "str" (VBlob [x61; x62; x63]))
                           (Failing "start" (ErrExternal "boom"))
                           (Some (Failing "len" (ErrExternal "bang")))
                           RowNil ["str"] (VBlob [x61; x62; x63]) eq_refl))
             ["start"] (ErrExternal "boom") I eq_refl).
  - apply (proj2 (proj2 (@Substring_Eval_stops_early conversions
                           (Literal "str" (VBlob [x61; x62; x63]))
                           (Literal "start" (VText "one"))
                           (Some (Failing "len" (ErrExternal "bang")))
                           RowNil ["str"] (VBlob [x61; x62; x63]) eq_refl))
             ["start"] (VText "one") (ErrExternal "not an integer")
             I eq_refl eq_refl).
Defined.

(** ** TransformUp *)

(** X10.  [IsBinary.TransformUp] rebuilds its node without handing it
    to [f], so a rewrite that changes nothing but [IsBinary] nodes
    changes nothing at all. *)
Theorem TransformUp_skips_IsBinary (f : Expression -> Expression)
  (e : Expression) :
  (forall x, (forall c, x <> IsBinary c) -> f x = x) ->
  TransformUp f e = e.
Proof.
  intros Hf.
  induction e as [l | c IH | s st len IHs IHst IHlen | c IH]
    using Expression_tree_ind.
  - cbn. apply Hf. discriminate.
  - cbn. unfold NewIsBinary. now rewrite IH.
  - rewrite TransformUp_Substring, IHs, IHst.
    replace (option_map (TransformUp f) len) with len
      by (destruct len as [ln |]; cbn; [now rewrite IHlen | reflexivity]).
    apply Hf. discriminate.
  - cbn. unfold NewYear. rewrite IH. apply Hf. discriminate.
Qed.

Lemma TransformUp_skips_IsBinary_witness :
  TransformUp (fun x => match x with IsBinary c => c | _ => x end)
    (Year (IsBinary abcde))
  = Year (IsBinary abcde).
Proof.
  apply (TransformUp_skips_IsBinary
           (fun x => match x with IsBinary c => c | _ => x end)
           (Year (IsBinary abcde))).
  intros x Hx. destruct x; try reflexivity. now destruct (Hx x).
Defined.

(** X11.  [Substring.TransformUp] never meets the error it discards:
    [NewSubstring] succeeds on the rewritten children, and [f] receives
    the [Substring] over exactly these children, two for two and three
    for three. *)
Theorem TransformUp_Substring_rebuilds (f : Expression -> Expression)
  (str start : Expression) (len : option Expression) :
  exists sub,
    NewSubstring (map (TransformUp f) (Children (Substring str start len)))
    = inr sub /\
    TransformUp f (Substring str start len) = f sub /\
    Children sub = map (TransformUp f) (Children (Substring str start len)).
Proof.
  destruct len as [ln |]; eexists; repeat split.
Qed.

(** X12.  When [f] keeps the answer of [Resolved] at every node,
    [TransformUp f] keeps it for the tree. *)
Theorem TransformUp_keeps_Resolved (f : Expression -> Expression)
  (e : Expression) :
  (forall x, Resolved (f x) = Resolved x) ->
  Resolved (TransformUp f e) = Resolved e.
Proof.
  intros Hf.
  induction e as [l | c IH | s st len IHs IHst IHlen | c IH]
    using Expression_tree_ind.
  - cbn. apply Hf.
  - cbn. exact IH.
  - rewrite TransformUp_Substring, Hf. reflexivity.
  - cbn. rewrite Hf. cbn. exact IH.
Qed.

Lemma TransformUp_keeps_Resolved_witness :
  Resolved (TransformUp Year (IsBinary (UnresolvedColumn "c")))
  = Resolved (IsBinary (UnresolvedColumn "c")).
Proof.
  apply (TransformUp_keeps_Resolved Year (IsBinary (UnresolvedColumn "c"))).
  reflexivity.
Defined.

End expression_more.

(** * Further properties of package plan *)

Module plan_more.

Import plan examples plan_facts.

(** ** The index stays within the buffer *)

Lemma fillRows_index_ok next :
  (forall i out i', index_ok i -> next i = Some (out, i') ->
     index_ok i' /\ forall msg, out <> Panic msg) ->
  forall fuel ri acc out ri' rows,
    index_ok ri -> fillRows next fuel ri acc = Some (out, ri', rows) ->
    index_ok ri' /\ forall msg, out <> Panic msg.
Proof.
  intros Hnext. induction fuel as [| fuel IH];
    intros ri acc out ri' rows Hri Hfill; [discriminate |].
  cbn [fillRows] in Hfill.
  destruct (next ri) as [[[rr | err | msg] ri1] |] eqn:E; [| | | discriminate];
    destruct (Hnext _ _ _ Hri E) as [Hri1 Hout].
  - eapply IH; eassumption.
  - injection Hfill as <- <- _. split; [exact Hri1 | discriminate].
  - now destruct (Hout msg).
Qed.

Lemma Next_row_index_ok next li ri r0 Rs index leftRow out i' :
  (forall i out i', index_ok i -> next i = Some (out, i') ->
     index_ok i' /\ forall msg, out <> Panic msg) ->
  index_ok li -> index_ok ri ->
  (index = 0%nat \/ (index < List.length (r0 :: Rs))%nat) ->
  Next_row next li ri (r0 :: Rs) index leftRow = Some (out, i') ->
  index_ok i' /\ forall msg, out <> Panic msg.
Proof.
  intros Hnext Hli Hri Hidx. unfold Next_row.
  assert (Hemit : forall li1 k lr,
    index_ok li1 -> (k < List.length (r0 :: Rs))%nat ->
    match nth_error (r0 :: Rs) k with
    | Some rr =>
      if (List.length (r0 :: Rs) <=? S k)%nat
      then Some (Ret (append lr (values rr)),
                 crossJoinIterator li1 ri (r0 :: Rs) 0 RowNil)
      else Some (Ret (append lr (values rr)),
                 crossJoinIterator li1 ri (r0 :: Rs) (S k) lr)
    | None =>
      Some (Panic "index out of range",
            crossJoinIterator li1 ri (r0 :: Rs) k lr)
    end = Some (out, i') ->
    index_ok i' /\ forall msg, out <> Panic msg).
  { intros li1 k lr Hli1 Hk.
    destruct (nth_error (r0 :: Rs) k) as [rr |] eqn:Hnth;
      [| apply nth_error_None in Hnth; lia].
    destruct (List.length (r0 :: Rs) <=? S k)%nat eqn:E; intros HE;
      injection HE as <- <-; (split; [| discriminate]); cbn [index_ok];
      repeat split; auto.
    apply Nat.leb_gt in E. right. exact E. }
  destruct (is_nil leftRow).
  - destruct (next li) as [[[lr | err | msg] li1] |] eqn:E;
      [| | | discriminate]; destruct (Hnext _ _ _ Hli E) as [Hli1 Hout].
    + apply Hemit; [exact Hli1 | cbn; lia].
    + intros HE. injection HE as <- <-. split; [| discriminate].
      cbn [index_ok]. auto.
    + now destruct (Hout msg).
  - apply Hemit; [exact Hli | cbn in *; lia].
Qed.

Lemma Next_index_ok fuel : forall i out i',
  index_ok i -> Next fuel i = Some (out, i') ->
  index_ok i' /\ forall msg, out <> Panic msg.
Proof.
  induction fuel as [| fuel IH]; intros i out i' Hi Hn; [discriminate |].
  destruct i as [id pending close | li ri rightRows index leftRow].
  - cbn [Next] in Hn. destruct pending as [| [err | row] pending];
      injection Hn as <- <-; (split; [exact I | discriminate]).
  - cbn [Next] in Hn. destruct Hi as (Hli & Hri & Hidx).
    unfold crossJoinIterator_Next in Hn.
    destruct rightRows as [| r0 Rs];
      [| exact (Next_row_index_ok (Next fuel) _ _ _ _ _ _ _ _ IH Hli Hri Hidx Hn)].
    destruct (fillRows (Next fuel) fuel ri []) as [[[o ri1] rows1] |] eqn:E;
      [| discriminate].
    destruct (fillRows_index_ok (Next fuel) IH _ _ _ _ _ _ Hri E)
      as [Hri1 Ho].
    assert (Hidx0 : index = 0%nat) by (cbn in Hidx; lia).
    destruct o as [[] | err | msg]; [| now destruct (Ho msg)].
    destruct (is_EOF err).
    + destruct rows1 as [| r0 Rs].
      * injection Hn as <- <-. split; [| discriminate].
        cbn [index_ok]. auto.
      * exact (Next_row_index_ok (Next fuel) _ _ _ _ _ _ _ _ IH Hli Hri1
                 (or_introl Hidx0) Hn).
    + injection Hn as <- <-. split; [| discriminate].
      cbn [index_ok]. auto.
Qed.

Lemma RowIter_index_ok p : forall w i w',
  RowIter p w = (inr i, w') -> index_ok i.
Proof.
  induction p as [t | Left IHl Right IHr]; intros w i w' HR;
    cbn [RowIter] in HR.
  - destruct (table_RowIter t); [discriminate |].
    injection HR as <- _. exact I.
  - destruct (RowIter Left w) as [[err | li] w1] eqn:El; [discriminate |].
    destruct (RowIter Right w1) as [[err | ri] w2] eqn:Er; [discriminate |].
    injection HR as <- _. cbn [index_ok].
    repeat split; eauto.
Qed.

(** X13.  The indexing [i.rightRows[i.index]] is always within bounds:
    in an iterator obtained from [RowIter] every index is 0 or points
    into the buffered rows, every call of [Next] keeps it so, whatever
    it returns, and no call of [Next] panics. *)
Theorem Next_stays_in_bounds :
  (forall p w i w', RowIter p w = (inr i, w') -> index_ok i) /\
  (forall fuel i out i',
     index_ok i -> Next fuel i = Some (out, i') ->
     index_ok i' /\ forall msg, out <> Panic msg).
Proof.
  split.
  - intros p w i w'. apply RowIter_index_ok.
  - intros fuel. apply Next_index_ok.
Qed.

(** ** Next and Close *)

Lemma fillRows_same_close next :
  (forall i out i', next i = Some (out, i') ->
     handles i' = handles i /\ forall w, Close i' w = Close i w) ->
  forall fuel ri acc out ri' rows,
    fillRows next fuel ri acc = Some (out, ri', rows) ->
    handles ri' = handles ri /\ forall w, Close ri' w = Close ri w.
Proof.
  intros Hnext. induction fuel as [| fuel IH];
    intros ri acc out ri' rows Hfill; [discriminate |].
  cbn [fillRows] in Hfill.
  destruct (next ri) as [[[rr | err | msg] ri1] |] eqn:E; [| | | discriminate];
    destruct (Hnext _ _ _ E) as [Hh Hc].
  - destruct (IH _ _ _ _ _ Hfill) as [Hh' Hc'].
    split; [congruence | intros w; now rewrite Hc', Hc].
  - injection Hfill as _ <- _. auto.
  - injection Hfill as _ <- _. auto.
Qed.

Lemma Close_crossJoinIterator_ext li ri li' ri' rr idx lr rr' idx' lr' :
  (forall w, Close li' w = Close li w) ->
  (forall w, Close ri' w = Close ri w) ->
  forall w, Close (crossJoinIterator li' ri' rr' idx' lr') w
            = Close (crossJoinIterator li ri rr idx lr) w.
Proof.
  intros Hl Hr w. cbn [Close]. rewrite Hl.
  destruct (Close li w) as [[err |] w1]; now rewrite Hr.
Qed.

Lemma Next_row_same_close next li ri rightRows index leftRow out i' :
  (forall i out i', next i = Some (out, i') ->
     handles i' = handles i /\ forall w, Close i' w = Close i w) ->
  Next_row next li ri rightRows index leftRow = Some (out, i') ->
  handles i' = handles (crossJoinIterator li ri rightRows index leftRow) /\
  forall w, Close i' w
            = Close (crossJoinIterator li ri rightRows index leftRow) w.
Proof.
  intros Hnext. unfold Next_row.
  assert (Hemit : forall li1 k lr,
    handles li1 = handles li -> (forall w, Close li1 w = Close li w) ->
    match nth_error rightRows k with
    | Some rr =>
      if (List.length rightRows <=? S k)%nat
      then Some (Ret (append lr (values rr)),
                 crossJoinIterator li1 ri rightRows 0 RowNil)
      else Some (Ret (append lr (values rr)),
                 crossJoinIterator li1 ri rightRows (S k) lr)
    | None =>
      Some (Panic "index out of range",
            crossJoinIterator li1 ri rightRows k lr)
    end = Some (out, i') ->
    handles i' = handles (crossJoinIterator li ri rightRows index leftRow) /\
    forall w, Close i' w
              = Close (crossJoinIterator li ri rightRows index leftRow) w).
  { intros li1 k lr Hh Hc.
    destruct (nth_error rightRows k);
      [destruct (List.length rightRows <=? S k)%nat |];
      intros HE; injection HE as _ <-;
      (split; [cbn [handles]; now rewrite Hh
              | now apply Close_crossJoinIterator_ext]). }
  destruct (is_nil leftRow).
  - destruct (next li) as [[[lr | err | msg] li1] |] eqn:E;
      [| | | discriminate]; destruct (Hnext _ _ _ E) as [Hh Hc].
    + now apply Hemit.
    + intros HE. injection HE as _ <-.
      split; [cbn [handles]; now rewrite Hh
             | now apply Close_crossJoinIterator_ext].
    + intros HE. injection HE as _ <-.
      split; [cbn [handles]; now rewrite Hh
             | now apply Close_crossJoinIterator_ext].
  - now apply Hemit.
Qed.

Lemma Next_same_close fuel : forall i out i',
  Next fuel i = Some (out, i') ->
  handles i' = handles i /\ forall w, Close i' w = Close i w.
Proof.
  induction fuel as [| fuel IH]; intros i out i' Hn; [discriminate |].
  destruct i as [id pending close | li ri rightRows index leftRow].
  - cbn [Next] in Hn. destruct pending as [| [err | row] pending];
      injection Hn as _ <-; split; reflexivity.
  - cbn [Next] in Hn. unfold crossJoinIterator_Next in Hn.
    destruct rightRows as [| r0 Rs];
      [| exact (Next_row_same_close (Next fuel) _ _ _ _ _ _ _ IH Hn)].
    destruct (fillRows (Next fuel) fuel ri []) as [[[o ri1] rows1] |] eqn:E;
      [| discriminate].
    destruct (fillRows_same_close (Next fuel) IH _ _ _ _ _ _ E) as [Hh Hc].
    assert (Hstay : forall rr idx lr rr' idx' lr',
      handles (crossJoinIterator li ri1 rr' idx' lr')
      = handles (crossJoinIterator li ri rr idx lr) /\
      forall w, Close (crossJoinIterator li ri1 rr' idx' lr') w
                = Close (crossJoinIterator li ri rr idx lr) w).
    { intros. split; [cbn [handles]; now rewrite Hh |].
      now apply Close_crossJoinIterator_ext. }
    destruct o as [[] | err | msg].
    + destruct (is_EOF err).
      * destruct rows1 as [| r0 Rs].
        -- injection Hn as _ <-. apply Hstay.
        -- destruct (Next_row_same_close _ _ _ _ _ _ _ _ IH Hn) as [Hh' Hc'].
           destruct (Hstay [] index leftRow (r0 :: Rs) index leftRow)
             as [Hh2 Hc2].
           split; [congruence | intros w; now rewrite Hc', Hc2].
      * injection Hn as _ <-. apply Hstay.
    + injection Hn as _ <-. apply Hstay.
Qed.

(** X14.  A call of [Next] changes neither the iterators held nor what
    [Close] does: closing after the call closes the same iterators,
    returns the same error and leaves the same world as closing before
    it. *)
Theorem Next_leaves_Close (fuel : nat) (i i' : RowIterator)
  (out : outcome Row) :
  Next fuel i = Some (out, i') ->
  handles i' = handles i /\ forall w, Close i' w = Close i w.
Proof. apply Next_same_close. Qed.

Lemma Next_leaves_Close_witness :
  handles (crossJoinIterator
             (tableIterator 0 [inr (row1 2)] None)
             (tableIterator 1 [] (Some (ErrExternal "right")))
             [row1 10; row1 20] 1 (row1 1))
  = [0; 1]%nat /\
  forall w,
    Close (crossJoinIterator
             (tableIterator 0 [inr (row1 2)] None)
             (tableIterator 1 [] (Some (ErrExternal "right")))
             [row1 10; row1 20] 1 (row1 1)) w
    = Close (crossJoinIterator
               (tableIterator 0 [inr (row1 1); inr (row1 2)] None)
               (tableIterator 1 [inr (row1 10); inr (row1 20)]
                  (Some (ErrExternal "right")))
               [] 0 RowNil) w.
Proof.
  apply (Next_leaves_Close 5
           (crossJoinIterator
              (tableIterator 0 [inr (row1 1); inr (row1 2)] None)
              (tableIterator 1 [inr (row1 10); inr (row1 20)]
                 (Some (ErrExternal "right")))
              [] 0 RowNil)
           (crossJoinIterator
              (tableIterator 0 [inr (row1 2)] None)
              (tableIterator 1 [] (Some (ErrExternal "right")))
              [row1 10; row1 20] 1 (row1 1))
           (Ret (RowOf [VInt64 1; VInt64 10]))).
  reflexivity.
Defined.

(** ** Opening a plan *)

Lemma RowIter_opened p : forall w i w',
  RowIter p w = (inr i, w') ->
  handles i = seq (next_id w) (List.length (tables p)) /\
  events w' = events w ++ map Opened (handles i) /\
  next_id w' = (next_id w + List.length (tables p))%nat /\
  Forall (fun t => table_RowIter t = None) (tables p).
Proof.
  induction p as [t | Left IHl Right IHr]; intros w i w' HR;
    cbn [RowIter] in HR.
  - destruct (table_RowIter t) eqn:E; [discriminate |].
    injection HR as <- <-. cbn. repeat split; auto. lia.
  - destruct (RowIter Left w) as [[err | li] w1] eqn:El; [discriminate |].
    destruct (RowIter Right w1) as [[err | ri] w2] eqn:Er; [discriminate |].
    injection HR as <- <-.
    destruct (IHl _ _ _ El) as (Hl & El' & Nl & Fl).
    destruct (IHr _ _ _ Er) as (Hr & Er' & Nr & Fr).
    cbn [handles tables]. rewrite length_app, seq_app, Hl, Hr, Nl.
    repeat split.
    + rewrite Er', El', map_app, <- Hl, <- Nl, <- Hr. now rewrite app_assoc.
    + lia.
    + apply Forall_app. auto.
Qed.

(** X15.  When [RowIter] succeeds, the iterators the returned iterator
    holds are new ones, numbered from [next_id] on, one for each table
    of the plan in order; these are exactly the iterators it has opened,
    and each table of the plan opened without error. *)
Theorem RowIter_opens_what_it_returns (p : Node) (w w' : World)
  (i : RowIterator) :
  RowIter p w = (inr i, w') ->
  handles i = seq (next_id w) (List.length (tables p)) /\
  events w' = events w ++ map Opened (handles i) /\
  next_id w' = (next_id w + List.length (tables p))%nat /\
  Forall (fun t => table_RowIter t = None) (tables p).
Proof. apply RowIter_opened. Qed.

Lemma RowIter_opens_what_it_returns_witness :
  handles (crossJoinIterator
             (tableIterator 3 [inr (row1 1)] None)
             (tableIterator 4 [] None) [] 0 RowNil)
  = seq 3 (List.length (tables (CrossJoin (table "l" [row1 1])
                                  (table "r" [])))) /\
  events (mkWorld 5 [Opened 0; Closed 0; Opened 3; Opened 4])
  = [Opened 0; Closed 0]
    ++ map Opened (handles (crossJoinIterator
                              (tableIterator 3 [inr (row1 1)] None)
                              (tableIterator 4 [] None) [] 0 RowNil)) /\
  5%nat = (3 + List.length (tables (CrossJoin (table "l" [row1 1])
                                      (table "r" []))))%nat /\
  Forall (fun t => table_RowIter t = None)
    (tables (CrossJoin (table "l" [row1 1]) (table "r" []))).
Proof.
  apply (RowIter_opens_what_it_returns
           (CrossJoin (table "l" [row1 1]) (table "r" []))
           (mkWorld 3 [Opened 0; Closed 0])
           (mkWorld 5 [Opened 0; Closed 0; Opened 3; Opened 4])
           (crossJoinIterator
              (tableIterator 3 [inr (row1 1)] None)
              (tableIterator 4 [] None) [] 0 RowNil)).
  reflexivity.
Defined.

Lemma RowIter_failed p : forall w err w',
  RowIter p w = (inl err, w') ->
  exists before t after,
    tables p = before ++ t :: after /\
    Forall (fun t => table_RowIter t = None) before /\
    table_RowIter t = Some err /\
    events w'
    = events w ++ map Opened (seq (next_id w) (List.length before)) /\
    next_id w' = (next_id w + List.length before)%nat.
Proof.
  induction p as [t | Left IHl Right IHr]; intros w err w' HR;
    cbn [RowIter] in HR.
  - destruct (table_RowIter t) as [e |] eqn:E; [| discriminate].
    injection HR as <- <-. exists [], t, []. cbn.
    repeat split; auto; try (now rewrite app_nil_r); lia.
  - destruct (RowIter Left w) as [[e | li] w1] eqn:El.
    + injection HR as <- <-.
      destruct (IHl _ _ _ El) as (b & t & a & Ht & Fb & Et & Ev & Nx).
      exists b, t, (a ++ tables Right). cbn [tables].
      rewrite Ht, <- app_assoc. repeat split; auto.
    + destruct (RowIter_opened _ _ _ _ El) as (Hl & El' & Nl & Fl).
      destruct (RowIter Right w1) as [[e | ri] w2] eqn:Er; [| discriminate].
      injection HR as <- <-.
      destruct (IHr _ _ _ Er) as (b & t & a & Ht & Fb & Et & Ev & Nx).
      exists (tables Left ++ b), t, a. cbn [tables].
      rewrite Ht, <- app_assoc, length_app, seq_app, map_app.
      repeat split; auto.
      * apply Forall_app. auto.
      * rewrite Ev, El', Hl, Nl. now rewrite app_assoc.
      * lia.
Qed.

(** X16.  When [RowIter] fails, the error is the one of the first table,
    from the left, that does not open; the tables before it have been
    opened, in order, and none has been closed; the tables after it
    have not been touched. *)
Theorem RowIter_fails_at_first_table (p : Node) (w w' : World)
  (err : error) :
  RowIter p w = (inl err, w') ->
  exists before t after,
    tables p = before ++ t :: after /\
    Forall (fun t => table_RowIter t = None) before /\
    table_RowIter t = Some err /\
    events w'
    = events w ++ map Opened (seq (next_id w) (List.length before)) /\
    next_id w' = (next_id w + List.length before)%nat.
Proof. apply RowIter_failed. Qed.

Lemma RowIter_fails_at_first_table_witness :
  exists before t after,
    tables (CrossJoin (CrossJoin (table "a" []) (table "b" []))
              (CrossJoin (broken_table "c" (ErrExternal "c is gone"))
                 (broken_table "d" (ErrExternal "d is gone"))))
    = before ++ t :: after /\
    Forall (fun t => table_RowIter t = None) before /\
    table_RowIter t = Some (ErrExternal "c is gone") /\
    events (mkWorld 2 [Opened 0; Opened 1])
    = events empty_World
      ++ map Opened (seq (next_id empty_World) (List.length before)) /\
    next_id (mkWorld 2 [Opened 0; Opened 1])
    = (next_id empty_World + List.length before)%nat.
Proof.
  apply (RowIter_fails_at_first_table
           (CrossJoin (CrossJoin (table "a" []) (table "b" []))
              (CrossJoin (broken_table "c" (ErrExternal "c is gone"))
                 (broken_table "d" (ErrExternal "d is gone"))))
           empty_World (mkWorld 2 [Opened 0; Opened 1])
           (ErrExternal "c is gone")).
  reflexivity.
Defined.

(** ** Closing *)

(** X17.  [Close] returns the first failure: among the closes of all the
    iterators held, taken left to right, the error of the first one that
    fails, and nil when none fails. *)
Theorem Close_returns_first_failure (i : RowIterator) (w : World) :
  fst (Close i w) = first_error (close_results i).
Proof. apply Close_first_error. Qed.

(** ** Every iterator opened is closed once *)

Lemma Pulled_same_close i i' : Pulled i i' ->
  handles i' = handles i /\ forall w, Close i' w = Close i w.
Proof.
  induction 1 as [i | i i1 i' fuel out Hn _ [Hh Hc]]; [auto |].
  destruct (Next_same_close _ _ _ _ Hn) as [Hh1 Hc1].
  split; [congruence | intros w; now rewrite Hc, Hc1].
Qed.

Lemma count_seq id k : forall n,
  List.length (filter (Nat.eqb id) (seq n k))
  = if ((n <=? id) && (id <? n + k))%nat then 1%nat else 0%nat.
Proof.
  induction k as [| k IH]; intros n; cbn [seq filter].
  - destruct (Nat.leb_spec n id), (Nat.ltb_spec id (n + 0));
      cbn [andb List.length]; lia.
  - destruct (Nat.eqb_spec id n) as [Heq | Hne]; cbn [List.length];
      rewrite IH;
      destruct (Nat.leb_spec (S n) id), (Nat.ltb_spec id (S n + k)),
        (Nat.leb_spec n id), (Nat.ltb_spec id (n + S k));
      cbn [andb]; lia.
Qed.

Lemma count_Opened_seq id k n :
  List.length (filter (event_eqb (Opened id)) (map Opened (seq n k)))
  = if ((n <=? id) && (id <? n + k))%nat then 1%nat else 0%nat.
Proof.
  rewrite <- count_seq. generalize (seq n k). intros l.
  induction l as [| x l IH]; [reflexivity |]. cbn [map filter event_eqb].
  destruct (Nat.eqb id x); cbn [List.length]; now rewrite IH.
Qed.

Lemma count_Closed_seq id k n :
  List.length (filter (event_eqb (Closed id)) (map Closed (seq n k)))
  = if ((n <=? id) && (id <? n + k))%nat then 1%nat else 0%nat.
Proof.
  rewrite <- count_seq. generalize (seq n k). intros l.
  induction l as [| x l IH]; [reflexivity |]. cbn [map filter event_eqb].
  destruct (Nat.eqb id x); cbn [List.length]; now rewrite IH.
Qed.

Lemma no_Opened_in_Closed id l :
  filter (event_eqb (Opened id)) (map Closed l) = [].
Proof. induction l as [| x l IH]; cbn; auto. Qed.

Lemma no_Closed_in_Opened id l :
  filter (event_eqb (Closed id)) (map Opened l) = [].
Proof. induction l as [| x l IH]; cbn; auto. Qed.

Lemma World_ok_unseen w id ev :
  World_ok w -> (next_id w <= id)%nat -> event_id ev = id ->
  filter (event_eqb ev) (events w) = [].
Proof.
  unfold World_ok. intros Hw Hid Hev.
  induction (events w) as [| x l IH]; [reflexivity |].
  apply Forall_cons_iff in Hw as [Hx Hl]. cbn [filter].
  destruct (event_eqb ev x) eqn:E; [| now apply IH].
  destruct ev, x; cbn in *; try discriminate;
    apply Nat.eqb_eq in E; lia.
Qed.

(** X18.  Open, pull, close: in a world where the iterator numbers in
    use are below [next_id], let [RowIter] succeed, let any calls of
    [Next] follow, and close what is left.  Then each iterator held has
    been opened once and closed once, and for every other iterator the
    counts are what they were. *)
Theorem RowIter_then_Close_balanced (p : Node) (w w1 w2 : World)
  (i i' : RowIterator) (r : option error) :
  World_ok w ->
  RowIter p w = (inr i, w1) ->
  Pulled i i' ->
  Close i' w1 = (r, w2) ->
  forall id,
    (In id (handles i) ->
     opens id w = 0%nat /\ closes id w = 0%nat /\
     opens id w2 = 1%nat /\ closes id w2 = 1%nat) /\
    (~ In id (handles i) ->
     opens id w2 = opens id w /\ closes id w2 = closes id w).
Proof.
  intros Hw HR Hp HC id.
  destruct (RowIter_opened _ _ _ _ HR) as (Hh & Ev1 & _ & _).
  destruct (Pulled_same_close _ _ Hp) as [Hh' Hc'].
  destruct (Close_events i' w1) as [Ev2 _]. rewrite HC in Ev2.
  cbn [snd] in Ev2. rewrite Ev1, Hh', Hh in Ev2.
  unfold opens, closes, count_event. rewrite Ev2, Hh.
  rewrite !filter_app, !length_app, no_Opened_in_Closed,
    no_Closed_in_Opened, count_Opened_seq, count_Closed_seq.
  cbn [List.length]. split.
  - intros Hin. apply in_seq in Hin.
    rewrite (World_ok_unseen w id (Opened id) Hw) by (cbn; lia).
    rewrite (World_ok_unseen w id (Closed id) Hw) by (cbn; lia).
    replace (next_id w <=? id)%nat with true
      by (symmetry; apply Nat.leb_le; lia).
    replace (id <? next_id w + List.length (tables p))%nat with true
      by (symmetry; apply Nat.ltb_lt; lia).
    cbn. auto.
  - intros Hout. rewrite in_seq in Hout.
    destruct (next_id w <=? id)%nat eqn:E1; cbn [andb]; [| lia].
    apply Nat.leb_le in E1.
    replace (id <? next_id w + List.length (tables p))%nat with false
      by (symmetry; apply Nat.ltb_ge; lia).
    lia.
Qed.

Lemma RowIter_then_Close_balanced_witness :
  (opens 2 (mkWorld 3 [Opened 0; Opened 1; Opened 2; Closed 1; Closed 2])
   = 1%nat /\
   closes 2 (mkWorld 3 [Opened 0; Opened 1; Opened 2; Closed 1; Closed 2])
   = 1%nat) /\
  (opens 0 (mkWorld 3 [Opened 0; Opened 1; Opened 2; Closed 1; Closed 2])
   = opens 0 (mkWorld 1 [Opened 0]) /\
   closes 0 (mkWorld 3 [Opened 0; Opened 1; Opened 2; Closed 1; Closed 2])
   = closes 0 (mkWorld 1 [Opened 0])).
Proof.
  assert (Hbal := fun Hok Hpulled =>
    RowIter_then_Close_balanced
      (CrossJoin (table "l" [row1 1; row1 2])
         (table "r" [row1 10; row1 20]))
      (mkWorld 1 [Opened 0])
      (mkWorld 3 [Opened 0; Opened 1; Opened 2])
      (mkWorld 3 [Opened 0; Opened 1; Opened 2; Closed 1; Closed 2])
      (crossJoinIterator
         (tableIterator 1 [inr (row1 1); inr (row1 2)] None)
         (tableIterator 2 [inr (row1 10); inr (row1 20)] None)
         [] 0 RowNil)
      (crossJoinIterator
         (tableIterator 1 [inr (row1 2)] None)
         (tableIterator 2 [] None)
         [row1 10; row1 20] 1 (row1 1))
      None Hok eq_refl Hpulled eq_refl).
  assert (Hok : World_ok (mkWorld 1 [Opened 0])) by (repeat constructor).
  assert (Hpulled :
    Pulled
      (crossJoinIterator
         (tableIterator 1 [inr (row1 1); inr (row1 2)] None)
         (tableIterator 2 [inr (row1 10); inr (row1 20)] None)
         [] 0 RowNil)
      (crossJoinIterator
         (tableIterator 1 [inr (row1 2)] None)
         (tableIterator 2 [] None)
         [row1 10; row1 20] 1 (row1 1))).
  { eapply Pulled_next with (fuel := 5%nat); [| apply Pulled_none].
    reflexivity. }
  split.
  - destruct (Hbal Hok Hpulled 2%nat) as [Hin _].
    destruct Hin as (_ & _ & Ho & Hc); [cbn; auto | auto].
  - destruct (Hbal Hok Hpulled 0%nat) as [_ Hout].
    apply Hout. cbn. intros [H | [H | []]]; discriminate.
Defined.

(** ** Errors and the empty right side *)

Lemma fillRows_Ends ri Rs err : Ends ri Rs err ->
  forall acc, exists F ri', forall fuel k, (F <= fuel)%nat -> (F <= k)%nat ->
    fillRows (Next fuel) k ri acc = Some (Err err, ri', acc ++ Rs).
Proof.
  induction 1 as [i i' f err Hn | i i' f row rows err Hn _ IH]; intros acc.
  - exists (S f), i'. intros fuel k Hfuel Hk.
    destruct k as [| k]; [lia |]. cbn [fillRows].
    rewrite (Next_mono f fuel ltac:(lia) _ _ Hn). now rewrite app_nil_r.
  - destruct (IH (acc ++ [row])) as (F & ri' & HF).
    exists (S (Nat.max f F)), ri'. intros fuel k Hfuel Hk.
    destruct k as [| k]; [lia |]. cbn [fillRows].
    rewrite (Next_mono f fuel ltac:(lia) _ _ Hn).
    rewrite (HF fuel k ltac:(lia) ltac:(lia)). now rewrite <- app_assoc.
Qed.

(** X19.  With a right side that yields no row, [Next] returns [io.EOF]
    without a call to the left iterator: the left iterator, the index
    and the left row held are as they were, whatever they are. *)
Theorem empty_right_never_pulls_left (li ri : RowIterator) (index : nat)
  (leftRow : Row) :
  Yields ri [] ->
  exists F ri', forall fuel, (F <= fuel)%nat ->
    Next fuel (crossJoinIterator li ri [] index leftRow)
    = Some (Err io_EOF, crossJoinIterator li ri' [] index leftRow).
Proof.
  intros Hri. destruct (fillRows_Yields ri [] Hri []) as (F & ri' & Hfill).
  exists (S F), ri'. intros fuel Hfuel. destruct fuel as [| fuel]; [lia |].
  cbn [Next]. unfold crossJoinIterator_Next.
  now rewrite (Hfill fuel fuel ltac:(lia) ltac:(lia)).
Qed.

Lemma empty_right_never_pulls_left_witness :
  exists F ri', forall fuel, (F <= fuel)%nat ->
    Next fuel (crossJoinIterator
                 (tableIterator 0 [inl (ErrExternal "disk"); inr (row1 1)]
                    None)
                 (tableIterator 1 [] None) [] 0 RowNil)
    = Some (Err io_EOF,
            crossJoinIterator
              (tableIterator 0 [inl (ErrExternal "disk"); inr (row1 1)] None)
              ri' [] 0 RowNil).
Proof.
  apply (empty_right_never_pulls_left
           (tableIterator 0 [inl (ErrExternal "disk"); inr (row1 1)] None)
           (tableIterator 1 [] None) 0 RowNil).
  eapply Yields_EOF with (fuel := 1%nat). reflexivity.
Defined.

Lemma Next_row_keeps_right next li ri rows index leftRow out i' :
  Next_row next li ri rows index leftRow = Some (out, i') ->
  exists li' index' leftRow',
    i' = crossJoinIterator li' ri rows index' leftRow'.
Proof.
  unfold Next_row. destruct (is_nil leftRow).
  - destruct (next li) as [[[lr | e | msg] li'] |]; try discriminate.
    + destruct (nth_error rows 0) as [rr |];
        [destruct (List.length rows <=? 1)%nat |];
        intros [= <- <-]; eauto.
    + intros [= <- <-]; eauto.
    + intros [= <- <-]; eauto.
  - destruct (nth_error rows index) as [rr |];
      [destruct (List.length rows <=? S index)%nat |];
      intros [= <- <-]; eauto.
Qed.

Lemma Pulled_filled_keeps_right i i' : Pulled i i' ->
  forall li ri r0 rows index leftRow,
  i = crossJoinIterator li ri (r0 :: rows) index leftRow ->
  exists li' index' leftRow',
    i' = crossJoinIterator li' ri (r0 :: rows) index' leftRow'.
Proof.
  induction 1 as [i | i i1 i' fuel out Hn _ IH];
    intros li ri r0 rows index leftRow ->; [eauto |].
  destruct fuel as [| fuel]; [discriminate |].
  rewrite Next_crossJoinIterator_filled in Hn.
  destruct (Next_row_keeps_right _ _ _ _ _ _ _ _ Hn) as (li' & k & lr & ->).
  eapply IH. reflexivity.
Qed.

(** X20.  When the right iterator fails after some rows, the first call
    of [Next] returns its error and pulls nothing from the left; as
    many rows as were read stay in the buffer, and the fill is not
    tried again: whatever calls of [Next] follow, the join keeps that
    buffer and that right iterator. *)
Theorem right_error_is_not_retried (li ri : RowIterator) (r0 : Row)
  (Rs : list Row) (err : error) :
  Ends ri (r0 :: Rs) err -> is_EOF err = false ->
  exists F ri' rows,
    List.length rows = S (List.length Rs) /\
    (forall fuel, (F <= fuel)%nat ->
       Next fuel (crossJoinIterator li ri [] 0 RowNil)
       = Some (Err err, crossJoinIterator li ri' rows 0 RowNil)) /\
    (forall i',
       Pulled (crossJoinIterator li ri' rows 0 RowNil) i' ->
       exists li' index leftRow,
         i' = crossJoinIterator li' ri' rows index leftRow).
Proof.
  intros Hri Herr.
  destruct (fillRows_Ends ri _ err Hri []) as (F & ri' & Hfill).
  exists (S F), ri', (r0 :: Rs). split; [reflexivity | split].
  - intros fuel Hfuel. destruct fuel as [| fuel]; [lia |].
    cbn [Next]. unfold crossJoinIterator_Next.
    rewrite (Hfill fuel fuel ltac:(lia) ltac:(lia)). cbn [app].
    now rewrite Herr.
  - intros i' Hp. eapply Pulled_filled_keeps_right; [exact Hp | reflexivity].
Qed.

Lemma right_error_is_not_retried_witness :
  exists F ri' rows,
    List.length rows = 1%nat /\
    (forall fuel, (F <= fuel)%nat ->
       Next fuel (crossJoinIterator
                    (tableIterator 0 [inr (row1 1)] None)
                    (tableIterator 1 [inr (row1 10);
                                      inl (ErrExternal "disk");
                                      inr (row1 20)] None)
                    [] 0 RowNil)
       = Some (Err (ErrExternal "disk"),
               crossJoinIterator (tableIterator 0 [inr (row1 1)] None)
                 ri' rows 0 RowNil)) /\
    (forall i',
       Pulled (crossJoinIterator (tableIterator 0 [inr (row1 1)] None)
                 ri' rows 0 RowNil) i' ->
       exists li' index leftRow,
         i' = crossJoinIterator li' ri' rows index leftRow).
Proof.
  apply (right_error_is_not_retried
           (tableIterator 0 [inr (row1 1)] None)
           (tableIterator 1 [inr (row1 10); inl (ErrExternal "disk");
                             inr (row1 20)] None)
           (row1 10) [] (ErrExternal "disk")).
  - eapply Ends_row with (fuel := 1%nat); [reflexivity |].
    eapply Ends_error with (fuel := 1%nat). reflexivity.
  - reflexivity.
Defined.

(** ** Schema and rewriting *)

(** X21.  A [CrossJoin] adds nothing of its own: the schema of a plan is
    the schemas of its tables, left to right, and the plan is resolved
    exactly when all its tables are. *)
Theorem plan_is_its_tables (p : Node) :
  Node_Schema p = flat_map table_Schema (tables p) /\
  Resolved p = forallb table_Resolved (tables p).
Proof.
  induction p as [t | Left [Sl Rl] Right [Sr Rr]].
  - cbn. now rewrite app_nil_r, andb_true_r.
  - cbn [Node_Schema Resolved tables].
    now rewrite flat_map_app, forallb_app, Sl, Sr, Rl, Rr.
Qed.

(** X22.  When [f] keeps the schema of every node, [TransformUp f] keeps
    the schema of the plan. *)
Theorem TransformUp_keeps_Schema (f : Node -> Node) (p : Node) :
  (forall n, Node_Schema (f n) = Node_Schema n) ->
  Node_Schema (TransformUp f p) = Node_Schema p.
Proof.
  intros Hf. induction p as [t | Left IHl Right IHr]; cbn [TransformUp].
  - apply Hf.
  - rewrite Hf. unfold NewCrossJoin. cbn [Node_Schema]. now rewrite IHl, IHr.
Qed.

Lemma TransformUp_keeps_Schema_witness :
  Node_Schema
    (TransformUp
       (fun n => match n with
                 | NTable t =>
                   NTable (mkTable (table_Name t) (table_Schema t) true
                             None [] None)
                 | _ => n
                 end)
       (CrossJoin
          (NTable (mkTable "a" [mkColumn "x" true] false None [] None))
          (NTable (mkTable "b" [mkColumn "y" false] true None [] None))))
  = [mkColumn "x" true; mkColumn "y" false].
Proof.
  apply (TransformUp_keeps_Schema
           (fun n => match n with
                     | NTable t =>
                       NTable (mkTable (table_Name t) (table_Schema t) true
                                 None [] None)
                     | _ => n
                     end)
           (CrossJoin
              (NTable (mkTable "a" [mkColumn "x" true] false None [] None))
              (NTable (mkTable "b" [mkColumn "y" false] true None [] None)))).
  intros n. destruct n; reflexivity.
Defined.

Lemma cross_width a b Ls Rs :
  Forall (fun l => List.length l = a) Ls ->
  Forall (fun r => List.length (values r) = b) Rs ->
  Forall (fun row => List.length (values row) = (a + b)%nat) (cross Ls Rs).
Proof.
  intros HL HR. induction HL as [| l Ls Hl _ IH]; [constructor |].
  rewrite cross_cons. apply Forall_app. split; [| exact IH].
  apply Forall_map. eapply Forall_impl; [| exact HR].
  cbn. intros r Hr. rewrite length_app. lia.
Qed.

(** X23.  Rows as wide as the schema: when the rows of the two children
    are as wide as the children's schemas, every row the join returns,
    pulled to the end, is as wide as the schema of the join. *)
Theorem CrossJoin_rows_fit_Schema (Left Right : Node) (li ri : RowIterator)
  (Ls : list (list Value)) (Rs : list Row) :
  Yields li (map RowOf Ls) -> Yields ri Rs ->
  Forall (fun l => List.length l = List.length (Node_Schema Left)) Ls ->
  Forall (fun r => List.length (values r) = List.length (Node_Schema Right))
    Rs ->
  exists F, forall fuel, (F <= fuel)%nat ->
    exists rows,
      drain fuel (crossJoinIterator li ri [] 0 RowNil) = Some (rows, io_EOF) /\
      Forall (fun row => List.length (values row)
                         = List.length (Node_Schema (CrossJoin Left Right)))
        rows.
Proof.
  intros Hli Hri HL HR.
  destruct (Yields_drain _ _ (Yields_crossJoinIterator li ri Ls Rs Hli Hri))
    as [F HF].
  exists F. intros fuel Hfuel. exists (cross Ls Rs).
  split; [now apply HF |].
  rewrite CrossJoin_Schema_length. now apply cross_width.
Qed.

Lemma CrossJoin_rows_fit_Schema_witness :
  exists F, forall fuel, (F <= fuel)%nat ->
    exists rows,
      drain fuel (crossJoinIterator
                    (tableIterator 0 [inr (row1 1); inr (row1 2)] None)
                    (tableIterator 1 [inr (RowOf [VNil; VBool true])] None)
                    [] 0 RowNil)
      = Some (rows, io_EOF) /\
      Forall (fun row =>
                List.length (values row)
                = List.length
                    (Node_Schema
                       (CrossJoin
                          (NTable (mkTable "a" [mkColumn "x" true] true None
                                     [] None))
                          (NTable (mkTable "b" [mkColumn "y" false;
                                                mkColumn "z" false] true None
                                     [] None)))))
        rows.
Proof.
  apply (CrossJoin_rows_fit_Schema
           (NTable (mkTable "a" [mkColumn "x" true] true None [] None))
           (NTable (mkTable "b" [mkColumn "y" false; mkColumn "z" false]
                      true None [] None))
           (tableIterator 0 [inr (row1 1); inr (row1 2)] None)
           (tableIterator 1 [inr (RowOf [VNil; VBool true])] None)
           [[VInt64 1]; [VInt64 2]] [RowOf [VNil; VBool true]]).
  - apply (drain_Yields 5). reflexivity.
  - apply (drain_Yields 5). reflexivity.
  - repeat constructor.
  - repeat constructor.
Defined.

End plan_more.
